(** * srccat: a shallow embedding of [main.go] and its specification

    The development follows the layout of the Go source:
    - [Strs]      the string helpers of Go's [strings] package that the code calls;
    - [Exclude]   [shouldExclude] (the exclusion evaluator);
    - [Proc]      [isBinary], [processFile] and the output functions;
    - [Tree]      [filepath.Walk] with the callback of [listFiles];
    - [Cli]       the [Action] of [main];
    - [Conc]      the goroutines of [listFiles]: coordinator, workers, reporter. *)

From Stdlib Require Import Strings.Byte Strings.Ascii.
From stdpp Require Import base list strings.
From Stdlib Require Import ZArith Lia.

Local Open Scope string_scope.
Local Open Scope list_scope.
Set Warnings "-register-all".

(** ** Strings *)

Module Strs.

(** The line terminator written by the [\n] of the format strings. *)
Definition nl : string := String (Ascii.ascii_of_nat 10) EmptyString.

(** [strings.HasPrefix]:
    [len(s) >= len(prefix) && s[:len(prefix)] == prefix]. *)
Definition HasPrefix (s pre : string) : bool :=
  (String.length pre <=? String.length s)%nat
  && String.eqb (String.substring 0 (String.length pre) s) pre.

(** [strings.HasSuffix]:
    [len(s) >= len(suffix) && s[len(s)-len(suffix):] == suffix]. *)
Definition HasSuffix (s suf : string) : bool :=
  (String.length suf <=? String.length s)%nat
  && String.eqb
       (String.substring (String.length s - String.length suf) (String.length suf) s)
       suf.

End Strs.

(** ** The exclusion evaluator *)

Module Exclude.
Import Strs.

(** [os.PathSeparator] on the platforms where the separator is a slash. *)
Definition PathSeparator : string := "/".

(** A compiled [glob.Glob] is used only through [Match]. *)
Definition Glob : Type := string → bool.

(** A [gitignore.Matcher] is used only through [Match(path, isDir)]. *)
Definition Matcher : Type := list string → bool → bool.

Definition excludedDirs : list string :=
  [ ".git"; "node_modules"; "build"; "dist"; "out"; ".cache"; ".tmp";
    ".vscode"; ".idea"; ".next"; "public"; ".terraform" ].

Definition excludedPatterns : list string :=
  [ ".json"; ".log"; ".bak"; "~"; ".DS_Store";
    "package-lock.json"; "yarn.lock"; ".d.ts"; "config.mjs";
    ".lock.hcl"; ".ico"; ".tfstate";
    ".backup"; ".pptx"; ".ppt"; ".doc"; ".docx"; ".xls"; ".xlsx"; ".mod"; ".sum" ].

(** [shouldExclude]; the package variable [customExcludePatterns] is passed
    explicitly. Each [for] loop returns [true] at its first hit, which is
    [existsb]. *)
Definition shouldExclude (customExcludePatterns : list Glob)
    (name relativePath : string) (matcher : Matcher) : bool :=
  if existsb (λ dir, String.eqb name dir
                     || HasPrefix relativePath (dir +:+ PathSeparator))
       excludedDirs then true
  else if existsb (λ pattern, HasSuffix name pattern) excludedPatterns then true
  else if HasPrefix name ".env" then true
  else if String.eqb name ".gitignore" then true
  else if existsb (λ pattern : Glob, pattern relativePath) customExcludePatterns
       then true
  else matcher [relativePath] false.

End Exclude.

(** ** The file processor and the output functions *)

Module Proc.
Import Strs.

Definition maxFileSize : Z := 1 * 1024 * 1024.

Record FileContent := mkFileContent { Path : string; Content : string }.

(** [isBinary]: the slice is cut to its first 1024 bytes when longer, then
    scanned for a zero byte. *)
Definition isBinary (content : list byte) : bool :=
  let content := if (1024 <? length content)%nat then take 1024 content
                 else content in
  existsb (λ b, Byte.eqb b x00) content.

Arguments isBinary : simpl never.

(** The lines written with [log.Printf]; the rendering of the error value and
    of the size is kept as data. *)
Inductive logEntry :=
| LogStatError (path : string)
| LogSkipLarge (path : string) (size : Z)
| LogReadError (path : string).

(** The body of a goroutine as a tree of its effects. [Append] is the
    critical section between [mu.Lock] and [mu.Unlock], which appends [fc]
    to the shared slice and which the mutex makes one step; [Send] is [progressChan <- p]. *)
Inductive prog :=
| Stat (path : string) (k : option Z → prog)
| ReadFile (path : string) (k : option (list byte) → prog)
| Log (e : logEntry) (k : prog)
| Append (fc : FileContent) (k : prog)
| Send (p : string) (k : prog)
| Ret.

(** [processFile]: the shared slice, the mutex and the channel are the
    shared state that the [Append] and [Send] steps act on. *)
Definition processFile (path relativePath : string) (readContent : bool) : prog :=
  Stat path (λ info,
    match info with
    | None => Log (LogStatError path) Ret
    | Some size =>
      if (size >? maxFileSize)%Z then Log (LogSkipLarge path size) Ret
      else
        if readContent then
          ReadFile path (λ r,
            match r with
            | None => Log (LogReadError path) Ret
            | Some content =>
              let fileContent :=
                if negb (isBinary content)
                then mkFileContent relativePath (String.string_of_list_byte content)
                else mkFileContent relativePath "" in
              Append fileContent (Send relativePath Ret)
            end)
        else
          Append (mkFileContent relativePath "") (Send relativePath Ret)
    end).

(** What the file system answers: [os.Stat] gives the size or fails,
    [os.ReadFile] gives the bytes or fails. The two are independent, as the
    file may change between the calls. *)
Record fsys := mkFsys {
  stat : string → option Z;
  readFile : string → option (list byte)
}.

Inductive ioEvent := IOStat (path : string) | IORead (path : string).

(** The effects of one goroutine run to its end. *)
Record effects := mkEffects {
  appended : list FileContent;
  logged : list logEntry;
  io : list ioEvent;
  sent : list string
}.

Definition noEffects : effects := mkEffects [] [] [] [].

Fixpoint exec (fs : fsys) (p : prog) : effects :=
  match p with
  | Stat path k =>
    let e := exec fs (k (stat fs path)) in
    mkEffects (appended e) (logged e) (IOStat path :: io e) (sent e)
  | ReadFile path k =>
    let e := exec fs (k (readFile fs path)) in
    mkEffects (appended e) (logged e) (IORead path :: io e) (sent e)
  | Log l k =>
    let e := exec fs k in
    mkEffects (appended e) (l :: logged e) (io e) (sent e)
  | Append fc k =>
    let e := exec fs k in
    mkEffects (fc :: appended e) (logged e) (io e) (sent e)
  | Send p k =>
    let e := exec fs k in
    mkEffects (appended e) (logged e) (io e) (p :: sent e)
  | Ret => noEffects
  end.

(** The four ways [processFile] can go, by what the file system answers. *)
Inductive outcome (fs : fsys) (path : string) (readContent : bool) :=
| StatFailed : stat fs path = None → outcome fs path readContent
| Oversize size :
    stat fs path = Some size → (size > maxFileSize)%Z →
    outcome fs path readContent
| ReadFailed size :
    stat fs path = Some size → (size ≤ maxFileSize)%Z →
    readContent = true → readFile fs path = None →
    outcome fs path readContent
| Recorded size :
    stat fs path = Some size → (size ≤ maxFileSize)%Z →
    (readContent = true → is_Some (readFile fs path)) →
    outcome fs path readContent.

(** [outputText]: [fmt.Printf("\n```%s\n%s\n```\n", file.Path, file.Content)]. *)
Definition outputText (files : list FileContent) : string :=
  foldr (λ file acc,
           nl +:+ "```" +:+ Path file +:+ nl +:+ Content file +:+ nl
              +:+ "```" +:+ nl +:+ acc) "" files.

(** [outputList]: [fmt.Printf("- %s\n", file.Path)]. *)
Definition outputList (files : list FileContent) : string :=
  foldr (λ file acc, "- " +:+ Path file +:+ nl +:+ acc) "" files.

(** [outputJSON] encodes each element by its struct tags: [path] always,
    [content] with [omitempty], so the key is left out for the empty string.
    The document is kept as data: one list of key/value pairs per element. *)
Definition jsonObject (file : FileContent) : list (string * string) :=
  if String.eqb (Content file) "" then [("path", Path file)]
  else [("path", Path file); ("content", Content file)].

Definition outputJSON (files : list FileContent) : list (list (string * string)) :=
  map jsonObject files.

End Proc.

(** ** The directory walk *)

Module Tree.
Import Strs Exclude Proc.

(** What [filepath.Walk] meets on disk. [File] is any entry whose [Lstat]
    succeeds and is not a directory; [Broken] is an entry whose [Lstat]
    fails; a directory is [readable] when its names can be listed, and
    [entries] is that listing in the order [Walk] visits it. *)
Inductive node :=
| File (name : string)
| Dir (name : string) (readable : bool) (entries : list node)
| Broken (name : string).

Definition nodeName (n : node) : string :=
  match n with File name | Dir name _ _ | Broken name => name end.

(** The errors the walk passes around: the [filepath.SkipDir] marker and a
    failure, kept with the path it arose at. *)
Inductive walkErr := SkipDir | WalkFail (path : string).

(** What the callback does with an entry. *)
Inductive event :=
| Dispatch (path relativePath : string)
| ExcludeFile (relativePath : string)
| PruneDir (relativePath : string).

(** [filepath.Join(path, name)] for a clean [path]. *)
Definition Join (path name : string) : string := path +:+ PathSeparator +:+ name.

(** [filepath.Rel(baseDir, path)] along the walk: [.] at the root, the entry
    name directly below it, and the parent's relative path, a separator and
    the name further down. [Rel] does not fail on a path that [Walk] built
    from [baseDir], so the error branch of the callback is left out. *)
Definition relOf (parentRel name : string) : string :=
  if String.eqb parentRel "." then name
  else parentRel +:+ PathSeparator +:+ name.

Section Walk.
Variable customExcludePatterns : list Glob.
Variable matcher : Matcher.

(** The function literal handed to [filepath.Walk] in [listFiles]. [err] says
    whether [Walk] reports an error for the entry; [isDir] is [info.IsDir()].
    The goroutine started for an eligible file is recorded as [Dispatch]. *)
Definition walkFn (path relativePath name : string) (isDir err : bool)
    : list event * option walkErr :=
  if err then ([], Some (WalkFail path))
  else if shouldExclude customExcludePatterns name relativePath matcher then
    if isDir then ([PruneDir relativePath], Some SkipDir)
    else ([ExcludeFile relativePath], None)
  else if negb isDir then ([Dispatch path relativePath], None)
  else ([], None).

(** Whether the loop of [filepath.walk] goes on after the error [e] of the
    entry [c]: only for [SkipDir], and only when it comes from a directory or
    from the callback on an entry whose [Lstat] failed. *)
Definition skipped (c : node) (e : walkErr) : bool :=
  match e, c with
  | SkipDir, Dir _ _ _ => true
  | SkipDir, Broken _ => true
  | _, _ => false
  end.

(** The [for _, name := range names] loop of [filepath.walk]. *)
Definition walkEntries (walk1 : node → list event * option walkErr)
    : list node → list event * option walkErr :=
  fix go (es : list node) :=
    match es with
    | [] => ([], None)
    | c :: es' =>
      let '(ev1, r1) := walk1 c in
      match r1 with
      | None => let '(ev2, r2) := go es' in (ev1 ++ ev2, r2)
      | Some e =>
        if skipped c e then let '(ev2, r2) := go es' in (ev1 ++ ev2, r2)
        else (ev1, Some e)
      end
    end.

(** [filepath.walk]: a non-directory goes to the callback; for a directory
    the names are read, the callback is called with the read error, and the
    walk descends only when both the read and the callback succeeded. *)
Fixpoint walk (path relativePath : string) (n : node)
    : list event * option walkErr :=
  match n with
  | File name => walkFn path relativePath name false false
  | Broken name => walkFn path relativePath name false true
  | Dir name readable es =>
    let '(ev, err1) := walkFn path relativePath name true (negb readable) in
    if negb readable || bool_decide (is_Some err1) then (ev, err1)
    else
      let '(ev', r) :=
        walkEntries
          (λ c, walk (Join path (nodeName c)) (relOf relativePath (nodeName c)) c)
          es in
      (ev ++ ev', r)
  end.

(** [filepath.Walk]: a [SkipDir] that reaches the top is not an error. *)
Definition Walk (root : string) (n : node) : list event * option walkErr :=
  let '(ev, r) := walk root "." n in
  (ev, match r with Some SkipDir => None | _ => r end).

End Walk.

(** The goroutines started by a walk, in the order they are started. *)
Definition dispatched (trace : list event) : list (string * string) :=
  omap (λ e, match e with Dispatch p r => Some (p, r) | _ => None end) trace.

Definition isDispatchOf (rel : string) (e : event) : bool :=
  match e with Dispatch _ r => String.eqb r rel | _ => false end.

Definition isExcludeOf (rel : string) (e : event) : bool :=
  match e with ExcludeFile r => String.eqb r rel | _ => false end.

(** How many events of a trace satisfy [P]. *)
Definition count (P : event → bool) (trace : list event) : nat :=
  length (filter (λ e, P e = true) trace).

(** How often a relative path was handed to [processFile], and how often it
    was dropped as an excluded file. *)
Definition dispatches (rel : string) (trace : list event) : nat :=
  count (isDispatchOf rel) trace.

Definition exclusions (rel : string) (trace : list event) : nat :=
  count (isExcludeOf rel) trace.

(** The walk ended with a failure (and not with [SkipDir]). *)
Definition isFail (r : option walkErr) : Prop := ∃ path, r = Some (WalkFail path).

(** What [relOf] puts in front of the name. *)
Definition dirPrefix (rel : string) : string :=
  if String.eqb rel "." then "" else rel +:+ PathSeparator.

(** What can follow a relative path inside a longer one. *)
Definition tail (s : string) : Prop := s = "" ∨ ∃ t, s = PathSeparator +:+ t.

(** [x] is the path [d] or lies below it. *)
Definition within (d x : string) : Prop := ∃ s, tail s ∧ x = d +:+ s.

(** A name as a directory listing returns it: not empty, not [.], and
    without a separator. *)
Fixpoint noSeparator (s : string) : bool :=
  match s with
  | EmptyString => true
  | String c s' => negb (Ascii.eqb c "/"%char) && noSeparator s'
  end.

Definition entryName (s : string) : bool :=
  noSeparator s && negb (String.eqb s ".") && negb (String.eqb s "").

(** The entries of every directory carry listing names, pairwise different. *)
Fixpoint wellFormed (n : node) : bool :=
  match n with
  | Dir _ _ es =>
    bool_decide (NoDup (map nodeName es))
    && forallb (λ c, entryName (nodeName c)) es
    && forallb wellFormed es
  | _ => true
  end.

(** The relative path an event is about. *)
Definition evRel (e : event) : string :=
  match e with Dispatch _ r | ExcludeFile r | PruneDir r => r end.

(** Whether a directory on the way down to a file is excluded. *)
Definition pruned (customExcludePatterns : list Glob) (matcher : Matcher)
    (chain : list (string * string)) : bool :=
  existsb (λ d, shouldExclude customExcludePatterns d.1 d.2 matcher) chain.

(** [occurs rel n chain fname frel]: below the node [n], which has the
    relative path [rel], lies a file named [fname] with relative path [frel];
    [chain] lists the name and relative path of every directory from [n]
    down to the one holding the file. *)
Inductive occurs : string → node → list (string * string) → string → string → Prop :=
| occurs_here rel name : occurs rel (File name) [] name rel
| occurs_below rel name readable es c chain fname frel :
    c ∈ es →
    occurs (relOf rel (nodeName c)) c chain fname frel →
    occurs rel (Dir name readable es) ((name, rel) :: chain) fname frel.

End Tree.

(** ** The command line *)

Module Cli.
Import Strs Exclude Proc.

Inductive cliError :=
| ErrDirNotExist
| ErrInvalidFormat
| ErrInvalidPattern (pattern : string).

(** The loop over [excludePatterns]: [glob.Compile] each pattern, stop at the
    first that fails, append the others to [customExcludePatterns]. *)
Fixpoint compileAll (compile : string → option Glob) (acc : list Glob)
    (patterns : list string) : cliError + list Glob :=
  match patterns with
  | [] => inr acc
  | pattern :: rest =>
    match compile pattern with
    | None => inl (ErrInvalidPattern pattern)
    | Some g => compileAll compile (acc ++ [g]) rest
    end
  end.

(** The [Action] of the app. [dirNotExist] is [os.IsNotExist] of the error of
    [os.Stat(directory)]. The result is the error returned, or the arguments
    [listFiles] is called with, next to the compiled patterns. *)
Definition Action (dirNotExist : bool) (compile : string → option Glob)
    (directory format : string) (listOnly : bool) (excludePatterns : list string)
    : cliError + (string * string * list Glob) :=
  if dirNotExist then inl ErrDirNotExist
  else if negb listOnly && negb (String.eqb format "text")
          && negb (String.eqb format "json") then inl ErrInvalidFormat
  else
    let format := if listOnly then "list" else format in
    match compileAll compile [] excludePatterns with
    | inl e => inl e
    | inr globs => inr (directory, format, globs)
    end.

(** The values the format selector is documented to take. *)
Definition recognizedFormats : list string := ["text"; "json"; "list"].

(** [main]: an error of the action goes to [log.Fatal], which ends the
    process with status 1 before [listFiles] is ever called. *)
Inductive startup :=
| Fatal (status : Z) (e : cliError)
| CallListFiles (directory format : string) (globs : list Glob).

Definition main (dirNotExist : bool) (compile : string → option Glob)
    (directory format : string) (listOnly : bool) (excludePatterns : list string)
    : startup :=
  match Action dirNotExist compile directory format listOnly excludePatterns with
  | inl e => Fatal 1 e
  | inr (directory, format, globs) => CallListFiles directory format globs
  end.

End Cli.

(** ** The goroutines of [listFiles] *)

Module Conc.
Import Strs Exclude Proc Tree.

(** Where the goroutine running [listFiles] stands. During the walk it still
    has [pending] files to start a goroutine for, and [failed] tells how the
    walk will end. *)
Inductive coordState :=
| CWalk (pending : list (string * string)) (failed : bool)
| CWait        (* at [wg.Wait()] *)
| CClose       (* at [close(progressChan)] *)
| CRecvDone    (* at the receive from [doneChan] *)
| CFinished    (* past it: the files are handed to the output function *)
| CAbort.      (* [listFiles] returned the error of the walk *)

(** Where [showProgress] stands. *)
Inductive repState :=
| RStart       (* before the loop *)
| RRecv        (* at the receive of [for range progressChan] *)
| RPrint       (* inside the loop, at the print of every 100th file *)
| RFinal       (* past the loop, at the last print *)
| RSendDone    (* at the send on [doneChan] *)
| RExit.

#[global] Instance repState_eq_dec : EqDecision repState.
Proof. solve_decision. Defined.

Inductive progressLine := Progress (count : nat) | Summary (count : nat).

Record state := mkState {
  coord : coordState;
  workers : list prog;
  files : list FileContent;
  logs : list logEntry;
  ios : list ioEvent;
  closed : bool;
  rep : repState;
  count : nat;
  stderr : list progressLine
}.

Definition setCoord (c : coordState) (s : state) : state :=
  mkState c (workers s) (files s) (logs s) (ios s) (closed s) (rep s) (count s)
          (stderr s).

Definition setWorkers (ws : list prog) (s : state) : state :=
  mkState (coord s) ws (files s) (logs s) (ios s) (closed s) (rep s) (count s)
          (stderr s).

Definition setRep (r : repState) (s : state) : state :=
  mkState (coord s) (workers s) (files s) (logs s) (ios s) (closed s) r (count s)
          (stderr s).

Inductive action :=
| ADispatch            (* the walk starts the goroutine of the next file *)
| AWalkReturns         (* [filepath.Walk] returns *)
| AWorker (i : nat)    (* goroutine [i] makes a step that is not a send *)
| ARendezvous (i : nat) (* the send of goroutine [i] meets the receive *)
| AWaitReturns         (* [wg.Wait()] returns *)
| AClose               (* [close(progressChan)] *)
| AReporter            (* a step of [showProgress] on its own *)
| ADone.               (* the send on [doneChan] meets its receive *)

Definition isRet (p : prog) : bool :=
  match p with Ret => true | _ => false end.

(** The process is alive until [listFiles] returns. *)
Definition running (s : state) : bool :=
  match coord s with CFinished | CAbort => false | _ => true end.

Section Steps.
Variable fs : fsys.
Variable readContent : bool.

(** A step of goroutine [i] on the shared state. A [Send] is not a step of
    the goroutine alone: [progressChan] is made without a capacity, so the
    send completes only together with a receive ([ARendezvous]). *)
Definition workerStep (i : nat) (s : state) : option state :=
  match workers s !! i with
  | Some (Stat path k) =>
    Some (mkState (coord s) (<[i := k (stat fs path)]> (workers s)) (files s)
            (logs s) (ios s ++ [IOStat path]) (closed s) (rep s) (count s)
            (stderr s))
  | Some (ReadFile path k) =>
    Some (mkState (coord s) (<[i := k (readFile fs path)]> (workers s)) (files s)
            (logs s) (ios s ++ [IORead path]) (closed s) (rep s) (count s)
            (stderr s))
  | Some (Log e k) =>
    Some (mkState (coord s) (<[i := k]> (workers s)) (files s)
            (logs s ++ [e]) (ios s) (closed s) (rep s) (count s) (stderr s))
  | Some (Append fc k) =>
    Some (mkState (coord s) (<[i := k]> (workers s)) (files s ++ [fc])
            (logs s) (ios s) (closed s) (rep s) (count s) (stderr s))
  | Some (Send _ _) | Some Ret | None => None
  end.

(** The receive of the loop takes the value of a waiting sender, counts it,
    and goes to the print on every 100th. *)
Definition rendezvous (i : nat) (s : state) : option state :=
  match workers s !! i, rep s, closed s with
  | Some (Send _ k), RRecv, false =>
    let count' := S (count s) in
    Some (mkState (coord s) (<[i := k]> (workers s)) (files s) (logs s) (ios s)
            (closed s) (if (count' mod 100 =? 0)%nat then RPrint else RRecv)
            count' (stderr s))
  | _, _, _ => None
  end.

Definition reporterStep (s : state) : option state :=
  match rep s with
  | RStart => Some (setRep RRecv s)
  | RPrint =>
    Some (mkState (coord s) (workers s) (files s) (logs s) (ios s) (closed s)
            RRecv (count s) (stderr s ++ [Progress (count s)]))
  | RRecv => if closed s then Some (setRep RFinal s) else None
  | RFinal =>
    Some (mkState (coord s) (workers s) (files s) (logs s) (ios s) (closed s)
            RSendDone (count s) (stderr s ++ [Summary (count s)]))
  | RSendDone | RExit => None
  end.

Definition coordStep (a : action) (s : state) : option state :=
  match a, coord s with
  | ADispatch, CWalk ((path, rel) :: js) failed =>
    Some (setCoord (CWalk js failed)
            (setWorkers (workers s ++ [processFile path rel readContent]) s))
  | AWalkReturns, CWalk [] failed =>
    Some (setCoord (if failed then CAbort else CWait) s)
  | AWaitReturns, CWait =>
    if forallb isRet (workers s) then Some (setCoord CClose s) else None
  | AClose, CClose =>
    Some (mkState CRecvDone (workers s) (files s) (logs s) (ios s) true (rep s)
            (count s) (stderr s))
  | ADone, CRecvDone =>
    match rep s with
    | RSendDone => Some (setCoord CFinished (setRep RExit s))
    | _ => None
    end
  | _, _ => None
  end.

(** One step of the whole program under the action [a], when it is enabled. *)
Definition fire (a : action) (s : state) : option state :=
  if running s then
    match a with
    | AWorker i => workerStep i s
    | ARendezvous i => rendezvous i s
    | AReporter => reporterStep s
    | _ => coordStep a s
    end
  else None.

(** A schedule is the list of actions taken, in order. *)
Fixpoint run (sched : list action) (s : state) : option state :=
  match sched with
  | [] => Some s
  | a :: sched' =>
    match fire a s with
    | Some s' => run sched' s'
    | None => None
    end
  end.

(** The steps [p] makes until its end, a send counted twice. *)
Fixpoint psize (p : prog) : nat :=
  match p with
  | Stat path k => S (psize (k (stat fs path)))
  | ReadFile path k => S (psize (k (readFile fs path)))
  | Log _ k | Append _ k => S (psize k)
  | Send _ k => S (S (psize k))
  | Ret => 0
  end.

(** The records of the files the walk found eligible, in walk order. *)
Definition records (jobs : list (string * string)) : list FileContent :=
  flat_map (λ j, appended (exec fs (processFile j.1 j.2 readContent))) jobs.

(** The files the walk has still to start a goroutine for. *)
Definition pendingJobs (s : state) : list (string * string) :=
  match coord s with CWalk js _ => js | _ => [] end.

(** The goroutine bodies that are running or still to be started. *)
Definition ahead (s : state) : list prog :=
  workers s ++ map (λ j, processFile j.1 j.2 readContent) (pendingJobs s).

(** A bound on the steps the program can still make. *)
Definition coordRank (c : coordState) : nat :=
  match c with
  | CWalk js _ => 5 + length js
  | CWait => 4
  | CClose => 3
  | CRecvDone => 2
  | CFinished | CAbort => 0
  end.

Definition repRank (r : repState) : nat :=
  match r with
  | RStart | RPrint => 4
  | RRecv => 3
  | RFinal => 2
  | RSendDone => 1
  | RExit => 0
  end.

Definition measure (s : state) : nat :=
  coordRank (coord s) + repRank (rep s) + sum_list_with psize (ahead s).

End Steps.

(** [showProgress] is before or inside its loop. *)
Definition inLoop (r : repState) : bool :=
  match r with RStart | RRecv | RPrint => true | _ => false end.

(** How the coordinator, the channel and the reporter hang together in
    every state of a run whose walk ends as [failed] says. *)
Definition consistent (failed : bool) (s : state) : bool :=
  match coord s with
  | CWalk _ f => bool_decide (f = failed) && negb (closed s) && inLoop (rep s)
  | CWait => negb failed && negb (closed s) && inLoop (rep s)
  | CClose =>
    negb failed && negb (closed s) && inLoop (rep s)
    && forallb isRet (workers s)
  | CRecvDone =>
    negb failed && closed s
    && negb (bool_decide (rep s = RExit)) && forallb isRet (workers s)
  | CFinished =>
    negb failed && closed s
    && bool_decide (rep s = RExit) && forallb isRet (workers s)
  | CAbort => failed
  end.

(** The state in which [listFiles] enters [filepath.Walk]: [showProgress] is
    started and nothing else has happened. *)
Definition init (jobs : list (string * string)) (failed : bool) : state :=
  mkState (CWalk jobs failed) [] [] [] [] false RStart 0 [].

End Conc.

(** ** [listFiles] as a whole *)

Module Run.
Import Strs Exclude Proc Tree Conc.

(** What opening the repository and its worktree gives: one of the two
    errors, or the matcher built from the worktree's patterns (from no
    pattern when the directory is not a repository). *)
Inductive gitResult :=
| GitOpenFailed
| GitWorktreeFailed
| GitMatcher (m : Matcher).

Inductive runError :=
| ErrOpenRepository
| ErrWorktree
| ErrWalk.

(** The [switch format] at the end of [listFiles]: the result is what is
    written to the standard output, as text or as the JSON document. *)
Definition render (format : string) (files : list FileContent)
    : string + list (list (string * string)) :=
  if String.eqb format "json" then inr (outputJSON files)
  else if String.eqb format "list" then inl (outputList files)
  else inl (outputText files).

(** [listFiles baseDir format] can return [res]: an error, or the output. The
    order in which the goroutines run is the schedule. *)
Definition listFiles (customExcludePatterns : list Glob) (git : gitResult)
    (fs : fsys) (tree : node) (baseDir format : string)
    (res : runError + (string + list (list (string * string)))) : Prop :=
  match git with
  | GitOpenFailed => res = inl ErrOpenRepository
  | GitWorktreeFailed => res = inl ErrWorktree
  | GitMatcher matcher =>
    let '(trace, err) := Walk customExcludePatterns matcher baseDir tree in
    ∃ sched s,
      run fs (negb (String.eqb format "list")) sched
          (init (dispatched trace) (bool_decide (is_Some err))) = Some s
      ∧ match coord s with
        | CAbort => res = inl ErrWalk
        | CFinished => res = inr (render format (files s))
        | _ => False
        end
  end.

End Run.

(** ** A small project to run the definitions on *)

Module Sample.
Import Strs Exclude Proc Tree Conc.

Definition tree : node :=
  Dir "proj" true
    [ File "a.txt";
      Dir "build" true [File "out.o"];
      Dir "src" true [File "main.go"; File "out"];
      File "trace.log" ].

(** No ignore pattern and no custom pattern. *)
Definition noMatch : Matcher := λ _ _, false.

(** Sizes and contents by path: [a.txt] holds [hello]; [main.go] holds 1024
    letters and then a zero byte; [big.bin] is one byte over the limit and
    [edge.bin] exactly at it; every other path is missing. *)
Definition fs : fsys :=
  mkFsys
    (λ path,
       if String.eqb path "/proj/a.txt" then Some 5%Z
       else if String.eqb path "/proj/src/main.go" then Some 1025%Z
       else if String.eqb path "/proj/bin.dat" then Some 3%Z
       else if String.eqb path "/proj/big.bin" then Some 1048577%Z
       else if String.eqb path "/proj/edge.bin" then Some 1048576%Z
       else None)
    (λ path,
       if String.eqb path "/proj/a.txt" then Some [x68; x65; x6c; x6c; x6f]
       else if String.eqb path "/proj/src/main.go"
            then Some (replicate 1024 x61 ++ [x00])
       else if String.eqb path "/proj/bin.dat" then Some [x61; x00; x62]
       else None).

(** A directory of two eligible files, and one with a file that is gone by
    the time it is processed. *)
Definition twoFiles : node := Dir "proj" true [File "a.txt"; File "bin.dat"].

Definition withGone : node := Dir "proj" true [File "a.txt"; File "gone.txt"].

(** The goroutine of the first file runs to its end before the second one
    starts, and the other way round. *)
Definition firstThenSecond : list action :=
  [ ADispatch; ADispatch; AReporter;
    AWorker 0; AWorker 0; AWorker 0; ARendezvous 0;
    AWorker 1; AWorker 1; AWorker 1; ARendezvous 1;
    AWalkReturns; AWaitReturns; AClose; AReporter; AReporter; ADone ].

Definition secondThenFirst : list action :=
  [ ADispatch; ADispatch; AReporter;
    AWorker 1; AWorker 1; AWorker 1; ARendezvous 1;
    AWorker 0; AWorker 0; AWorker 0; ARendezvous 0;
    AWalkReturns; AWaitReturns; AClose; AReporter; AReporter; ADone ].

End Sample.

(** ** Notions used to state further properties *)

Module Notions.
Import Strs Exclude Proc Tree Conc.

(** [s] begins with [pre]; [s] ends with [suf]. *)
Definition startsWith (s pre : string) : Prop := ∃ t, s = pre +:+ t.

Definition endsWith (s suf : string) : Prop := ∃ t, s = t +:+ suf.

(** The line ends in a string. *)
Fixpoint lineEnds (s : string) : nat :=
  match s with
  | EmptyString => 0
  | String c s' => (if Ascii.eqb c (Ascii.ascii_of_nat 10) then 1 else 0) + lineEnds s'
  end.

(** The progress lines for the first [k] hundreds. *)
Definition progressLines (k : nat) : list progressLine :=
  map (λ i, Progress (100 * i)) (seq 1 k).

(** What [showProgress] has written when it stands at [r] with [n] files
    counted. At the print inside the loop the line for the current hundred
    is still to come. *)
Definition written (r : repState) (n : nat) : list progressLine :=
  match r with
  | RPrint => progressLines (n / 100 - 1)
  | RSendDone | RExit => progressLines (n / 100) ++ [Summary n]
  | RStart | RRecv | RFinal => progressLines (n / 100)
  end.

(** The lines on the standard error are the ones for the hundreds counted,
    and the print inside the loop is reached only on a full hundred. *)
Definition reported (s : state) : Prop :=
  stderr s = written (rep s) (count s)
  ∧ (rep s = RPrint → count s mod 100 = 0 ∧ 0 < count s).

(** After the abort nothing has been closed and the reporter is where it
    was: the process ends with it inside its loop. *)
Definition abortedOpen (s : state) : Prop :=
  coord s = CAbort → closed s = false ∧ inLoop (rep s) = true.


(** A schedule for two files of which the second is gone: its goroutine
    logs the failed [os.Stat] and ends without a send. *)
Definition oneRecordOneWarning : list action :=
  [ ADispatch; ADispatch; AReporter;
    AWorker 0; AWorker 0; AWorker 0; ARendezvous 0;
    AWorker 1; AWorker 1;
    AWalkReturns; AWaitReturns; AClose; AReporter; AReporter; ADone ].

(** [failsAt rel n]: the walk of the node [n] under the relative path [rel]
    reaches an entry whose [Lstat] fails or a directory that cannot be
    listed, without an excluded directory on the way. *)
Inductive failsAt (customExcludePatterns : list Glob) (matcher : Matcher)
    : string → node → Prop :=
| fails_broken rel name : failsAt customExcludePatterns matcher rel (Broken name)
| fails_unreadable rel name es :
    failsAt customExcludePatterns matcher rel (Dir name false es)
| fails_below rel name es c :
    shouldExclude customExcludePatterns name rel matcher = false →
    c ∈ es →
    failsAt customExcludePatterns matcher (relOf rel (nodeName c)) c →
    failsAt customExcludePatterns matcher rel (Dir name true es).

(** A pattern compiler for the examples: an opening bracket alone does not
    compile, any other pattern matches the paths that end with it. *)
Definition suffixGlob (pattern : string) : option Glob :=
  if String.eqb pattern "[" then None else Some (λ rel, HasSuffix rel pattern).

(** A tree with a directory that cannot be listed. *)
Definition unreadable : node :=
  Dir "proj" true [File "a.txt"; Dir "locked" false []; File "b.txt"].


End Notions.

(** * Properties *)

(** ** The file processor *)

Module ProcFacts.
Import Strs Exclude Proc.

Lemma isBinary_sample content :
  isBinary content = existsb (λ b, Byte.eqb b x00) (take 1024 content).
Proof.
  unfold isBinary. destruct (1024 <? length content)%nat eqn:Hlen; [done|].
  apply Nat.ltb_ge in Hlen. by rewrite take_ge.
Qed.

Lemma isBinary_true content : isBinary content = true ↔ x00 ∈ take 1024 content.
Proof.
  rewrite isBinary_sample, existsb_exists. split.
  - intros (b & Hin & Hb). apply Byte.byte_dec_bl in Hb as ->.
    by apply list_elem_of_In.
  - intros Hin. exists x00. split; [by apply list_elem_of_In | done].
Qed.

Lemma isBinary_false content : isBinary content = false ↔ x00 ∉ take 1024 content.
Proof.
  rewrite <- isBinary_true. destruct (isBinary content); split; done.
Qed.

Lemma outcome_cases fs path readContent : outcome fs path readContent.
Proof.
  destruct (stat fs path) as [size|] eqn:Hstat; [|by apply StatFailed].
  destruct (Z_gt_le_dec size maxFileSize) as [Hgt|Hle].
  { by eapply Oversize. }
  destruct readContent.
  - destruct (readFile fs path) as [content|] eqn:Hread.
    + eapply Recorded; [done..|]. intros _. by rewrite Hread.
    + by eapply ReadFailed.
  - by eapply Recorded.
Qed.

Lemma over_max size : (size > maxFileSize)%Z → (size >? maxFileSize)%Z = true.
Proof. intros H. rewrite Z.gtb_ltb. apply Z.ltb_lt. lia. Qed.

Lemma within_max size : (size ≤ maxFileSize)%Z → (size >? maxFileSize)%Z = false.
Proof. intros H. rewrite Z.gtb_ltb. by apply Z.ltb_ge. Qed.

Lemma exec_stat_failed fs path rel rc :
  stat fs path = None →
  exec fs (processFile path rel rc)
  = mkEffects [] [LogStatError path] [IOStat path] [].
Proof. intros H. cbn. by rewrite H. Qed.

Lemma exec_oversize fs path rel rc size :
  stat fs path = Some size → (size > maxFileSize)%Z →
  exec fs (processFile path rel rc)
  = mkEffects [] [LogSkipLarge path size] [IOStat path] [].
Proof.
  intros H Hgt. cbn. by rewrite H, over_max.
Qed.

Lemma exec_read_failed fs path rel size :
  stat fs path = Some size → (size ≤ maxFileSize)%Z →
  readFile fs path = None →
  exec fs (processFile path rel true)
  = mkEffects [] [LogReadError path] [IOStat path; IORead path] [].
Proof.
  intros H Hle Hr. cbn. rewrite H, within_max by done. cbn. by rewrite Hr.
Qed.

Lemma exec_read fs path rel size content :
  stat fs path = Some size → (size ≤ maxFileSize)%Z →
  readFile fs path = Some content →
  exec fs (processFile path rel true)
  = mkEffects
      [mkFileContent rel (if isBinary content then ""
                          else String.string_of_list_byte content)]
      [] [IOStat path; IORead path] [rel].
Proof.
  intros H Hle Hr. cbn. rewrite H, within_max by done. cbn. rewrite Hr.
  by destruct (isBinary content).
Qed.

Lemma exec_list_mode fs path rel size :
  stat fs path = Some size → (size ≤ maxFileSize)%Z →
  exec fs (processFile path rel false)
  = mkEffects [mkFileContent rel ""] [] [IOStat path] [rel].
Proof.
  intros H Hle. cbn. by rewrite H, within_max.
Qed.

(** Every record [processFile] appends carries the relative path it was
    called with. *)
Lemma appended_path fs path rel rc fc :
  fc ∈ appended (exec fs (processFile path rel rc)) → Path fc = rel.
Proof.
  destruct (outcome_cases fs path rc) as [H|size H Hgt|size H Hle -> Hr|size H Hle Hr].
  - rewrite exec_stat_failed by done. by intros ?%elem_of_nil.
  - erewrite exec_oversize by done. by intros ?%elem_of_nil.
  - erewrite exec_read_failed by done. by intros ?%elem_of_nil.
  - destruct rc.
    + destruct Hr as [content Hr]; [done|]. erewrite exec_read by done.
      cbn. by intros ->%list_elem_of_singleton.
    + erewrite exec_list_mode by done. cbn. by intros ->%list_elem_of_singleton.
Qed.

(** [outputList] writes the marker, the path and a line end for the first
    record, then goes on with the others. *)
Lemma outputList_cons file files :
  outputList (file :: files) = "- " +:+ Path file +:+ nl +:+ outputList files.
Proof. reflexivity. Qed.

(** It reads no [Content] field. *)
Lemma outputList_paths files :
  outputList files = outputList (map (λ file, mkFileContent (Path file) "") files).
Proof.
  induction files as [|file files IH]; [done|].
  cbn [map]. rewrite !outputList_cons. cbn [Path]. by rewrite IH.
Qed.

End ProcFacts.

(** ** The goroutines *)

Module ConcFacts.
Import Strs Exclude Proc Tree Conc.

Lemma allRet_lookup (ws : list prog) i p :
  forallb isRet ws = true → ws !! i = Some p → p = Ret.
Proof.
  intros Hall Hi. apply list_elem_of_lookup_2, list_elem_of_In in Hi.
  rewrite forallb_forall in Hall. specialize (Hall _ Hi). by destruct p.
Qed.

Lemma notAllRet_lookup (ws : list prog) :
  forallb isRet ws = false → ∃ i p, ws !! i = Some p ∧ isRet p = false.
Proof.
  induction ws as [|w ws IH]; [done|]. cbn. intros H.
  destruct (isRet w) eqn:Hw.
  - destruct (IH H) as (i & p & Hi & Hp). by exists (S i), p.
  - by exists 0, w.
Qed.

Ltac bools :=
  repeat match goal with
  | H : _ && _ = true |- _ => apply andb_prop in H as [? ?]
  | H : negb _ = true |- _ => apply negb_true_iff in H
  | H : bool_decide _ = true |- _ => apply bool_decide_eq_true in H
  | H : bool_decide _ = false |- _ => apply bool_decide_eq_false in H
  end.

Ltac noWorkerLeft :=
  match goal with
  | Hall : forallb isRet ?ws = true, Hi : ?ws !! _ = Some _ |- _ =>
    by pose proof (allRet_lookup _ _ _ Hall Hi)
  end.

Section Invariants.
Variable fs : fsys.
Variable readContent : bool.

Lemma fire_consistent failed a s s' :
  fire fs readContent a s = Some s' →
  consistent failed s = true → consistent failed s' = true.
Proof.
  unfold fire. destruct (running s) eqn:Hrun; [|done].
  destruct s as [c ws fl lg io cl r n err].
  unfold consistent, running in *. cbn in *.
  destruct a; cbn;
    unfold workerStep, rendezvous, reporterStep, coordStep; cbn;
    intros Hfire Hc; repeat case_match; simplify_eq/=; bools;
    try noWorkerLeft; subst; cbn in *;
    rewrite ?bool_decide_eq_true_2, ?andb_true_r by done; try done.
  all: by destruct r.
Qed.

Lemma run_consistent failed sched s s' :
  run fs readContent sched s = Some s' →
  consistent failed s = true → consistent failed s' = true.
Proof.
  revert s. induction sched as [|a sched IH]; cbn; intros s Hrun Hc.
  - by simplify_eq.
  - destruct (fire fs readContent a s) as [s1|] eqn:Hfire; [|done].
    eauto using fire_consistent.
Qed.

Lemma init_consistent jobs failed : consistent failed (init jobs failed) = true.
Proof. unfold consistent. cbn. by rewrite bool_decide_eq_true_2. Qed.

(** *** What is done and what is ahead *)

Lemma flat_map_insert {A} (f : prog → list A) ws i p p' x :
  ws !! i = Some p → f p = x ++ f p' →
  flat_map f ws ≡ₚ x ++ flat_map f (<[i:=p']> ws).
Proof.
  revert i. induction ws as [|w ws IH]; intros [|i] Hi Hf; simplify_eq/=.
  - by rewrite Hf, (assoc (++)).
  - rewrite (IH _ Hi Hf). by rewrite !(assoc (++)), (comm (++) x).
Qed.

Lemma ahead_step {A} (f : prog → list A) done x ws i p p' rest :
  ws !! i = Some p → f p = x ++ f p' →
  (done ++ x) ++ flat_map f (<[i:=p']> ws ++ rest)
  ≡ₚ done ++ flat_map f (ws ++ rest).
Proof.
  intros Hi Hf. rewrite !flat_map_app, (flat_map_insert f ws i p p' x) by done.
  by rewrite !(assoc (++)).
Qed.

Lemma ahead_same {A} (f : prog → list A) done ws i p p' rest :
  ws !! i = Some p → f p = f p' →
  done ++ flat_map f (<[i:=p']> ws ++ rest) ≡ₚ done ++ flat_map f (ws ++ rest).
Proof.
  intros Hi Hf. rewrite <- (ahead_step f done [] ws i p p' rest) by done.
  by rewrite app_nil_r.
Qed.

Ltac stepCases Hfire :=
  unfold fire in Hfire;
  match type of Hfire with
  | (if running ?s then _ else _) = _ => destruct (running s); [|done]
  end;
  match type of Hfire with
  | context [match ?a with ADispatch => _ | _ => _ end] => destruct a
  end;
  unfold workerStep, rendezvous, reporterStep, coordStep in Hfire;
  cbn in Hfire; repeat case_match; simplify_eq/=.

Lemma files_ahead a s s' :
  fire fs readContent a s = Some s' →
  files s' ++ flat_map (λ p, appended (exec fs p)) (ahead readContent s')
  ≡ₚ files s ++ flat_map (λ p, appended (exec fs p)) (ahead readContent s).
Proof.
  intros Hfire. destruct s as [c ws fl lg io cl r n err].
  unfold ahead, pendingJobs. cbn in *. stepCases Hfire; cbn; try done;
    try (by eapply ahead_same); try (by eapply (ahead_step _ _ [_]));
    by rewrite <- ?(assoc (++)).
Qed.

Lemma ios_ahead a s s' :
  fire fs readContent a s = Some s' →
  ios s' ++ flat_map (λ p, Proc.io (exec fs p)) (ahead readContent s')
  ≡ₚ ios s ++ flat_map (λ p, Proc.io (exec fs p)) (ahead readContent s).
Proof.
  intros Hfire. destruct s as [c ws fl lg io cl r n err].
  unfold ahead, pendingJobs. cbn in *. stepCases Hfire; cbn; try done;
    try (by eapply ahead_same); try (by eapply (ahead_step _ _ [_]));
    by rewrite <- ?(assoc (++)).
Qed.

Lemma logs_ahead a s s' :
  fire fs readContent a s = Some s' →
  logs s' ++ flat_map (λ p, logged (exec fs p)) (ahead readContent s')
  ≡ₚ logs s ++ flat_map (λ p, logged (exec fs p)) (ahead readContent s).
Proof.
  intros Hfire. destruct s as [c ws fl lg io cl r n err].
  unfold ahead, pendingJobs. cbn in *. stepCases Hfire; cbn; try done;
    try (by eapply ahead_same); try (by eapply (ahead_step _ _ [_]));
    by rewrite <- ?(assoc (++)).
Qed.

(** Along a run, what is done and what is ahead together stay what was
    ahead at the start. *)
Lemma run_ahead {A} (done : state → list A) (f : prog → list A) :
  (∀ a s s', fire fs readContent a s = Some s' →
     done s' ++ flat_map f (ahead readContent s')
     ≡ₚ done s ++ flat_map f (ahead readContent s)) →
  ∀ sched s s', run fs readContent sched s = Some s' →
    done s' ++ flat_map f (ahead readContent s')
    ≡ₚ done s ++ flat_map f (ahead readContent s).
Proof.
  intros Hstep sched. induction sched as [|a sched IH]; cbn; intros s s' Hrun.
  - by simplify_eq.
  - destruct (fire fs readContent a s) as [s1|] eqn:Hfire; [|done].
    by rewrite (IH _ _ Hrun), (Hstep _ _ _ Hfire).
Qed.

Lemma flat_map_allRet {A} (f : prog → list A) ws :
  f Ret = [] → forallb isRet ws = true → flat_map f ws = [].
Proof.
  intros Hf. induction ws as [|w ws IH]; [done|]. cbn.
  intros [Hw Hws]%andb_prop. destruct w; try done. by rewrite Hf, IH.
Qed.

Lemma ahead_finished failed s :
  consistent failed s = true → coord s = CFinished →
  forallb isRet (ahead readContent s) = true.
Proof.
  unfold consistent, ahead, pendingJobs. intros Hc Hfin. rewrite Hfin in *.
  bools. by rewrite app_nil_r.
Qed.

(** The files of a finished run are the records of the eligible files, in
    some order. *)
Lemma finished_files jobs failed sched s :
  run fs readContent sched (init jobs failed) = Some s →
  coord s = CFinished →
  files s ≡ₚ records fs readContent jobs.
Proof.
  intros Hrun Hfin.
  pose proof (run_ahead files _ files_ahead _ _ _ Hrun) as Hperm.
  pose proof (run_consistent failed _ _ _ Hrun (init_consistent _ _)) as Hc.
  rewrite (flat_map_allRet _ (ahead readContent s)) in Hperm;
    [|done|by eapply ahead_finished].
  rewrite app_nil_r in Hperm. rewrite Hperm. cbn. unfold ahead, records. cbn.
  by rewrite flat_map_concat_map, map_map, <- flat_map_concat_map.
Qed.

(** In every state of a run, each file recorded so far is a record of an
    eligible file. *)
Lemma run_files_sub jobs failed sched s :
  run fs readContent sched (init jobs failed) = Some s →
  files s ⊆ records fs readContent jobs.
Proof.
  intros Hrun fc Hfc.
  pose proof (run_ahead files _ files_ahead _ _ _ Hrun) as Hperm.
  assert (fc ∈ files (init jobs failed)
               ++ flat_map (λ p, appended (exec fs p))
                    (ahead readContent (init jobs failed))) as Hin.
  { rewrite <- Hperm. apply elem_of_app. by left. }
  cbn in Hin. unfold ahead, records in *. cbn in Hin.
  by rewrite flat_map_concat_map, map_map, <- flat_map_concat_map in Hin.
Qed.

(** *** Every run ends *)

Lemma sum_insert (f : prog → nat) ws i p p' :
  ws !! i = Some p →
  sum_list_with f (<[i:=p']> ws) + f p = sum_list_with f ws + f p'.
Proof.
  revert i. induction ws as [|w ws IH]; intros [|i] Hi; simplify_eq/=; [lia|].
  specialize (IH _ Hi). lia.
Qed.

Lemma fire_measure a s s' :
  fire fs readContent a s = Some s' →
  measure fs readContent s' < measure fs readContent s.
Proof.
  intros Hfire. destruct s as [c ws fl lg io cl r n err].
  unfold measure, ahead, pendingJobs. cbn in *.
  stepCases Hfire; cbn [coord rep workers setCoord setRep setWorkers
                         coordRank repRank length map fst snd];
    rewrite ?sum_list_with_app; cbn [sum_list_with]; try lia;
    match goal with
    | H : ws !! ?i = Some ?p |- context [<[?i:=?p']> ws] =>
      pose proof (sum_insert (psize fs) ws i p p' H) as Hsum;
      cbn [psize] in Hsum
    end; try lia.
  all: destruct (S n mod 100 =? 0); cbn [repRank]; lia.
Qed.

Lemma run_measure sched s s' :
  run fs readContent sched s = Some s' →
  (length sched + measure fs readContent s' ≤ measure fs readContent s)%nat.
Proof.
  revert s. induction sched as [|a sched IH]; cbn; intros s Hrun.
  - simplify_eq. lia.
  - destruct (fire fs readContent a s) as [s1|] eqn:Hfire; [|done].
    apply IH in Hrun. apply fire_measure in Hfire. lia.
Qed.

(** A consistent state that is still running can make a step. *)
Lemma fire_enabled failed s :
  consistent failed s = true → running s = true →
  ∃ a s', fire fs readContent a s = Some s'.
Proof.
  destruct s as [c ws fl lg io cl r n err].
  unfold consistent, running, fire. cbn. intros Hc Hrun.
  destruct c as [[|[path rel] js] f| | | | |]; try done; bools; subst.
  - exists AWalkReturns. by eexists.
  - exists ADispatch. by eexists.
  - destruct (forallb isRet ws) eqn:Hall.
    + exists AWaitReturns. cbn. rewrite Hall. by eexists.
    + destruct (notAllRet_lookup _ Hall) as (i & p & Hi & Hp).
      destruct p as [path k|path k|e k|fc k|q k|]; try done;
        try (exists (AWorker i); unfold workerStep; cbn; rewrite Hi;
             by eexists).
      destruct r; try done.
      * exists AReporter. by eexists.
      * exists (ARendezvous i). unfold rendezvous. cbn. rewrite Hi.
        by eexists.
      * exists AReporter. by eexists.
  - exists AClose. by eexists.
  - destruct r; try done.
    + exists AReporter. by eexists.
    + exists AReporter. unfold reporterStep. cbn. by eexists.
    + exists AReporter. by eexists.
    + exists AReporter. by eexists.
    + exists ADone. by eexists.
Qed.

(** From every consistent state some schedule brings [listFiles] to its
    return. *)
Lemma run_ends failed s :
  consistent failed s = true →
  ∃ sched s', run fs readContent sched s = Some s' ∧ running s' = false.
Proof.
  remember (measure fs readContent s) as m eqn:Hm. revert s Hm.
  induction (lt_wf m) as [m _ IH]. intros s -> Hc.
  destruct (running s) eqn:Hrun; [|by exists [], s].
  destruct (fire_enabled failed s Hc Hrun) as (a & s1 & Hfire).
  destruct (IH _ (fire_measure _ _ _ Hfire) s1 eq_refl) as (sched & s' & Hr & He).
  { by eapply fire_consistent. }
  exists (a :: sched), s'. cbn. by rewrite Hfire.
Qed.

(** A run whose walk succeeded does not end in the abort. *)
Lemma not_failed_not_abort s :
  consistent false s = true → coord s ≠ CAbort.
Proof. unfold consistent. by destruct (coord s). Qed.

(** *** A goroutine at its send *)

(** A goroutine at its send stays there under every step, except the
    rendezvous with the reporter at its receive. *)
Lemma send_waits a s s' i p k :
  workers s !! i = Some (Send p k) →
  fire fs readContent a s = Some s' →
  workers s' !! i = Some (Send p k)
  ∨ (a = ARendezvous i ∧ rep s = RRecv ∧ workers s' !! i = Some k).
Proof.
  intros Hi Hfire. destruct s as [c ws fl lg io cl r n err]. cbn in *.
  stepCases Hfire; cbn; auto;
    try (left; by apply lookup_app_l_Some);
    match goal with
    | H : ws !! ?j = Some _ |- _ =>
      destruct (decide (j = i)) as [->|Hne];
        [simplify_eq | left; by rewrite list_lookup_insert_ne]
    end.
  all: right; split_and!; [done..|].
  all: apply list_lookup_insert_eq; by eapply lookup_lt_Some.
Qed.

(** The reporter is at most one step of its own away from the receive, so
    the send of a goroutine completes after at most two steps. *)
Lemma send_served failed s i p k :
  consistent failed s = true → running s = true →
  workers s !! i = Some (Send p k) →
  ∃ s', (fire fs readContent (ARendezvous i) s = Some s'
         ∨ ∃ s1, fire fs readContent AReporter s = Some s1
                 ∧ fire fs readContent (ARendezvous i) s1 = Some s')
        ∧ workers s' !! i = Some k.
Proof.
  destruct s as [c ws fl lg io cl r n err].
  unfold consistent, running, fire. cbn. intros Hc Hrun Hi.
  assert (i < length ws) as Hlen by by eapply lookup_lt_Some.
  destruct c; try done; bools; try noWorkerLeft; subst;
    unfold rendezvous, reporterStep; cbn; rewrite ?Hi;
    (destruct r; try done;
     [ eexists; split; [right; eexists; split; [done|]; cbn; by rewrite Hi|]
     | eexists; split; [by left|]
     | eexists; split; [right; eexists; split; [done|]; cbn; by rewrite Hi|] ];
     cbn; by apply list_lookup_insert_eq).
Qed.

End Invariants.
End ConcFacts.

(** ** The directory walk *)

Module TreeFacts.
Import Strs Exclude Proc Tree.

(** *** Relative paths as strings *)

Lemma str_app_nil_l (b : string) : "" +:+ b = b.
Proof. reflexivity. Qed.

Lemma str_app_cons x (a b : string) : String x a +:+ b = String x (a +:+ b).
Proof. reflexivity. Qed.

Lemma str_app_assoc (a b c : string) : (a +:+ b) +:+ c = a +:+ b +:+ c.
Proof. induction a as [|x a IH]; [done|]. by rewrite !str_app_cons, IH. Qed.

Lemma str_app_nil_r (a : string) : a +:+ "" = a.
Proof. induction a as [|x a IH]; [done|]. by rewrite str_app_cons, IH. Qed.

Lemma relOf_prefix rel name : relOf rel name = dirPrefix rel +:+ name.
Proof.
  unfold relOf, dirPrefix. destruct (String.eqb rel "."); [done|].
  by rewrite str_app_assoc.
Qed.

Lemma within_refl d : within d d.
Proof. exists "". split; [by left | by rewrite str_app_nil_r]. Qed.

Lemma within_child rel name x :
  rel ≠ "." → within (relOf rel name) x → within rel x.
Proof.
  intros Hrel (s & _ & ->). unfold relOf.
  destruct (String.eqb_spec rel "."); [done|].
  exists (PathSeparator +:+ name +:+ s). split; [right; by eexists|].
  by rewrite !str_app_assoc.
Qed.

Lemma name_tail_inj n1 n2 s1 s2 :
  noSeparator n1 = true → noSeparator n2 = true → tail s1 → tail s2 →
  n1 +:+ s1 = n2 +:+ s2 → n1 = n2.
Proof.
  revert n2. induction n1 as [|c1 n1 IH]; intros [|c2 n2]; cbn;
    intros H1 H2 T1 T2 Heq; try done;
    rewrite ?str_app_cons, ?str_app_nil_l in Heq.
  - destruct T1 as [->|[t ->]]; [done|].
    unfold PathSeparator in Heq. rewrite str_app_cons in Heq. by simplify_eq.
  - destruct T2 as [->|[t ->]]; [done|].
    unfold PathSeparator in Heq. rewrite str_app_cons in Heq. by simplify_eq.
  - apply andb_prop in H1 as [_ H1]. apply andb_prop in H2 as [_ H2].
    simplify_eq. f_equal. by eapply IH.
Qed.

Lemma siblings_apart rel n1 n2 x :
  noSeparator n1 = true → noSeparator n2 = true →
  within (relOf rel n1) x → within (relOf rel n2) x → n1 = n2.
Proof.
  intros H1 H2 (s1 & T1 & ->) (s2 & T2 & Heq).
  rewrite !relOf_prefix, !str_app_assoc in Heq. apply (inj _) in Heq.
  exact (name_tail_inj _ _ _ _ H1 H2 T1 T2 Heq).
Qed.

Lemma entryName_noSeparator name : entryName name = true → noSeparator name = true.
Proof. unfold entryName. by intros [[? _]%andb_prop _]%andb_prop. Qed.

Lemma relOf_not_root rel name : entryName name = true → relOf rel name ≠ ".".
Proof.
  unfold entryName, relOf. intros [[_ Hdot]%andb_prop Hnil]%andb_prop.
  destruct (String.eqb rel ".").
  - apply negb_true_iff, String.eqb_neq in Hdot. done.
  - unfold PathSeparator.
    destruct rel as [|c [|c' rel]]; rewrite ?str_app_cons, ?str_app_nil_l;
      intros Heq; simplify_eq.
Qed.

Lemma within_trans a b c : within a b → within b c → within a c.
Proof.
  intros (s1 & T1 & ->) (s2 & T2 & ->). exists (s1 +:+ s2).
  split; [|by rewrite str_app_assoc].
  destruct T1 as [->|[t ->]]; [done|]. right. exists (t +:+ s2).
  by rewrite str_app_assoc.
Qed.

Lemma str_length_app (a b : string) :
  String.length (a +:+ b) = String.length a + String.length b.
Proof.
  induction a as [|x a IH]; [done|]. rewrite str_app_cons. cbn. by rewrite IH.
Qed.

(** A directory does not lie at or below one of its entries. *)
Lemma child_not_above rel name :
  entryName name = true → ¬ within (relOf rel name) rel.
Proof.
  unfold entryName, relOf. intros [[_ Hdot]%andb_prop Hnil]%andb_prop.
  apply negb_true_iff, String.eqb_neq in Hdot, Hnil.
  intros (s & _ & Heq). destruct (String.eqb_spec rel ".") as [->|_].
  - destruct name as [|c [|c' name]]; [done| |];
      rewrite ?str_app_cons, ?str_app_nil_l in Heq; by simplify_eq.
  - apply (f_equal String.length) in Heq. rewrite !str_length_app in Heq.
    unfold PathSeparator in Heq. cbn [String.length] in Heq. lia.
Qed.

Lemma NoDup_names_eq (es : list node) c c' :
  NoDup (map nodeName es) → c ∈ es → c' ∈ es →
  nodeName c = nodeName c' → c = c'.
Proof.
  induction es as [|c0 es IH]; [by intros _ ?%elem_of_nil|].
  cbn [map]. intros [Hc0 Hnd]%NoDup_cons Hc Hc' Hn.
  assert (∀ x, x ∈ es → nodeName x ≠ nodeName c0) as Hrest.
  { intros x Hx Hnx. apply Hc0. rewrite <- Hnx.
    apply list_elem_of_In, in_map. by apply list_elem_of_In. }
  apply elem_of_cons in Hc as [->|Hc]; apply elem_of_cons in Hc' as [->|Hc'].
  - done.
  - by destruct (Hrest _ Hc').
  - by destruct (Hrest _ Hc).
  - by apply IH.
Qed.

(** *** Induction on trees *)

Lemma node_ind' (P : node → Prop) :
  (∀ name, P (File name)) →
  (∀ name, P (Broken name)) →
  (∀ name readable es, Forall P es → P (Dir name readable es)) →
  ∀ n, P n.
Proof.
  intros HF HB HD. fix IH 1. intros [name|name readable es|name].
  - apply HF.
  - apply HD. induction es as [|c es IHes]; constructor; [apply IH|apply IHes].
  - apply HB.
Qed.

Lemma wellFormed_Dir name readable es :
  wellFormed (Dir name readable es) = true →
  NoDup (map nodeName es)
  ∧ Forall (λ c, entryName (nodeName c) = true) es
  ∧ Forall (λ c, wellFormed c = true) es.
Proof.
  cbn. intros [[H1 H2]%andb_prop H3]%andb_prop. split_and!.
  - by apply bool_decide_eq_true in H1.
  - apply Forall_forall. intros c Hc. rewrite forallb_forall in H2.
    by apply H2, list_elem_of_In.
  - apply Forall_forall. intros c Hc. rewrite forallb_forall in H3.
    by apply H3, list_elem_of_In.
Qed.

(** *** The events of a walk *)

Lemma count_app P t1 t2 : count P (t1 ++ t2) = count P t1 + count P t2.
Proof. unfold count. by rewrite filter_app, length_app. Qed.

Lemma count_none P trace : (∀ e, e ∈ trace → P e = false) → count P trace = 0.
Proof.
  unfold count. induction trace as [|e trace IH]; [done|]. intros H.
  rewrite filter_cons_False.
  - apply IH. intros e' He'. apply H. by right.
  - rewrite H; [done|by left].
Qed.

Lemma count_singleton P e : count P [e] = if P e then 1 else 0.
Proof.
  unfold count. destruct (P e) eqn:HP.
  - by rewrite filter_cons_True.
  - rewrite filter_cons_False; [done|]. by rewrite HP.
Qed.

Lemma count_some P trace e : e ∈ trace → P e = true → 0 < count P trace.
Proof.
  unfold count. intros He HP.
  assert (e ∈ filter (λ e, P e = true) trace) as Hin
    by by apply list_elem_of_filter.
  destruct (filter _ trace); [by apply elem_of_nil in Hin|cbn; lia].
Qed.

Section Walk.
Variable customExcludePatterns : list Glob.
Variable matcher : Matcher.

Local Abbreviation walkFn := (walkFn customExcludePatterns matcher).
Local Abbreviation walk := (walk customExcludePatterns matcher).
Local Abbreviation excluded name rel :=
  (shouldExclude customExcludePatterns name rel matcher).

Lemma walk_Dir path rel name readable es :
  walk path rel (Dir name readable es)
  = if negb readable then ([], Some (WalkFail path))
    else if excluded name rel then ([PruneDir rel], Some SkipDir)
    else walkEntries
           (λ c, walk (Join path (nodeName c)) (relOf rel (nodeName c)) c) es.
Proof.
  cbn. unfold Tree.walkFn. destruct readable; cbn; [|done].
  destruct (excluded name rel); cbn; [done|].
  by destruct (walkEntries _ es).
Qed.

Lemma walk_File path rel name :
  walk path rel (File name)
  = if excluded name rel then ([ExcludeFile rel], None)
    else ([Dispatch path rel], None).
Proof. cbn. unfold Tree.walkFn. by destruct (excluded name rel). Qed.

(** Only a directory answers [SkipDir], so the loop over the entries of a
    directory is never cut short by it. *)
Lemma walk_SkipDir path rel n :
  (walk path rel n).2 = Some SkipDir → skipped n SkipDir = true.
Proof.
  destruct n as [name|name readable es|name]; [|done..].
  rewrite walk_File. by destruct (excluded name rel).
Qed.

Lemma walkEntries_elem w es e :
  e ∈ (walkEntries w es).1 → ∃ c, c ∈ es ∧ e ∈ (w c).1.
Proof.
  induction es as [|c es IH]; cbn; [by intros ?%elem_of_nil|].
  destruct (w c) as [ev1 r1] eqn:Hw.
  assert (e ∈ ev1 → ∃ c', c' ∈ c :: es ∧ e ∈ (w c').1) as Hhere.
  { intros He. exists c. split; [by left|by rewrite Hw]. }
  assert (e ∈ (walkEntries w es).1 → ∃ c', c' ∈ c :: es ∧ e ∈ (w c').1)
    as Hthere.
  { intros (c' & Hc' & He)%IH. exists c'. split; [by right|done]. }
  destruct (walkEntries w es) as [ev2 r2].
  destruct r1 as [err|]; [destruct (skipped c err)|]; cbn;
    rewrite ?elem_of_app; intuition.
Qed.

(** Every event of the walk of a node is about the node or something below
    it. *)
Lemma walk_within n :
  wellFormed n = true → ∀ path rel e,
  rel ≠ "." → e ∈ (walk path rel n).1 → within rel (evRel e).
Proof.
  induction n as [name|name|name readable es IH] using node_ind';
    intros Hwf path rel e Hrel.
  - rewrite walk_File. destruct (excluded name rel); cbn;
      intros ->%list_elem_of_singleton; apply within_refl.
  - cbn. by intros ?%elem_of_nil.
  - rewrite walk_Dir. apply wellFormed_Dir in Hwf as (_ & Hnames & Hwf).
    destruct readable; cbn; [|by intros ?%elem_of_nil].
    destruct (excluded name rel); cbn.
    { intros ->%list_elem_of_singleton. apply within_refl. }
    intros (c & Hc & He)%walkEntries_elem.
    rewrite Forall_forall in IH, Hnames, Hwf.
    eapply within_child; [done|]. eapply IH; [done|by apply Hwf| |done].
    by apply relOf_not_root, Hnames.
Qed.

Lemma occurs_within rel n chain fname frel :
  occurs rel n chain fname frel → wellFormed n = true → rel ≠ "." →
  within rel frel.
Proof.
  induction 1 as [rel name|rel name readable es c chain fname frel Hc _ IH];
    intros Hwf Hrel; [apply within_refl|].
  apply wellFormed_Dir in Hwf as (_ & Hnames & Hwf).
  rewrite Forall_forall in Hnames, Hwf.
  eapply within_child; [done|]. apply IH; [by apply Hwf|].
  by apply relOf_not_root, Hnames.
Qed.

(** *** Counting the events about one file *)

(** The loop over the entries of a directory, seen from one entry [c]: when
    the other entries have no event that satisfies [P], the loop has the
    events of [c], or fewer when it is cut short by a failure. *)
Lemma walkEntries_count P w es c x :
  c ∈ es → NoDup (map nodeName es) →
  (∀ c' e, c' ∈ es → nodeName c' ≠ nodeName c → e ∈ (w c').1 → P e = false) →
  (∀ c', c' ∈ es → (w c').2 = Some SkipDir → skipped c' SkipDir = true) →
  (count P (w c).1 ≤ x)%nat →
  (¬ isFail (w c).2 → count P (w c).1 = x) →
  (count P (walkEntries w es).1 ≤ x)%nat
  ∧ (¬ isFail (walkEntries w es).2 → count P (walkEntries w es).1 = x).
Proof.
  intros Hc Hnd Hother Hskip Hle Heq.
  induction es as [|c0 es IH]; [by apply elem_of_nil in Hc|].
  cbn [map] in Hnd. apply NoDup_cons in Hnd as [Hc0 Hnd].
  cbn [walkEntries].
  assert (∀ c', c' ∈ es → nodeName c' ≠ nodeName c0) as Hrest.
  { intros c' Hc' Hn. apply Hc0. rewrite <- Hn.
    apply list_elem_of_In. apply in_map. by apply list_elem_of_In. }
  apply elem_of_cons in Hc as [->|Hc].
  - (* the entry is the first one: the others add nothing *)
    assert (count P (walkEntries w es).1 = 0) as Hzero.
    { apply count_none. intros e (c' & Hc' & He)%walkEntries_elem.
      eapply Hother; [by right|by apply Hrest|done]. }
    destruct (w c0) as [ev1 r1] eqn:Hw. cbn [fst snd] in *.
    destruct (walkEntries w es) as [ev2 r2]. cbn [fst snd] in *.
    assert (r1 = None ∨ (∃ e, r1 = Some e ∧ skipped c0 e = true) →
            ¬ isFail r1) as Hnofail.
    { intros [->|(e & -> & He)] [path Hp]; simplify_eq; by destruct c0. }
    destruct r1 as [e|]; [destruct (skipped c0 e) eqn:Hsk|]; cbn [fst snd];
      rewrite ?count_app, ?Hzero, ?Nat.add_0_r.
    + split; [done|]. intros _. apply Heq, Hnofail. right. by exists e.
    + done.
    + split; [done|]. intros _. apply Heq, Hnofail. by left.
  - (* the entry comes later: the first one adds nothing *)
    assert (count P (w c0).1 = 0) as Hzero.
    { apply count_none. intros e He.
      eapply Hother; [by left| |done]. intros Hn. apply Hc0. rewrite Hn.
      apply list_elem_of_In. apply in_map. by apply list_elem_of_In. }
    specialize (IH Hc Hnd).
    destruct IH as [IHle IHeq].
    { intros c' e Hc' Hn He. eapply Hother; [by right|done..]. }
    { intros c' Hc'. apply Hskip. by right. }
    assert (c0 ∈ c0 :: es) as Hhd by by left.
    pose proof (Hskip c0 Hhd) as Hskip0.
    destruct (w c0) as [ev1 r1] eqn:Hw. cbn [fst snd] in *.
    destruct (walkEntries w es) as [ev2 r2]. cbn [fst snd] in *.
    destruct r1 as [e|]; [destruct (skipped c0 e) eqn:Hsk|]; cbn [fst snd];
      rewrite ?count_app, ?Hzero; cbn [Nat.add]; [done| |done].
    split; [lia|]. intros Hnf. destruct e as [|path].
    + rewrite Hskip0 in Hsk; done.
    + destruct Hnf. by exists path.
Qed.

(** The number of events about the file [frel] that satisfy [P], when the
    callback gives [x] of them on the file itself and none on a directory. *)
Lemma walk_count P x rel n chain fname frel :
  occurs rel n chain fname frel → wellFormed n = true →
  (∀ e, P e = true → evRel e = frel) →
  (∀ r, P (PruneDir r) = false) →
  (∀ path, count P (walkFn path frel fname false false).1 = x) →
  ∀ path,
  let X := if pruned customExcludePatterns matcher chain then 0 else x in
  (count P (walk path rel n).1 ≤ X)%nat
  ∧ (¬ isFail (walk path rel n).2 → count P (walk path rel n).1 = X).
Proof.
  intros Hocc Hwf HP Hprune Hfile.
  induction Hocc as [rel name|rel name readable es c chain fname frel Hc Hocc IH];
    intros path X.
  - subst X. cbn [pruned existsb]. change (walk path rel (File name))
      with (walkFn path rel name false false). rewrite Hfile. by split.
  - apply wellFormed_Dir in Hwf as (Hnd & Hnames & Hwf).
    rewrite Forall_forall in Hnames, Hwf.
    subst X. rewrite walk_Dir. cbn [pruned existsb fst snd].
    destruct readable; cbn [negb].
    2:{ split; [cbn; lia|]. intros []. by exists path. }
    destruct (excluded name rel) eqn:Hex; cbn [orb].
    { cbn [fst snd]. assert (count P [PruneDir rel] = 0) as ->; [|by split].
      apply count_none. by intros e ->%list_elem_of_singleton. }
    fold (pruned customExcludePatterns matcher chain).
    destruct (IH (Hwf _ Hc) HP Hfile (Join path (nodeName c))) as [IHle IHeq].
    apply (walkEntries_count P _ es c); [done|done| | |exact IHle|exact IHeq].
    + intros c' e Hc' Hn He. destruct (P e) eqn:HPe; [|done].
      destruct Hn. apply HP in HPe.
      eapply (siblings_apart rel _ _ frel);
        [by apply entryName_noSeparator, Hnames
        |by apply entryName_noSeparator, Hnames| |].
      * rewrite <- HPe. eapply walk_within; [by apply Hwf| |done].
        by apply relOf_not_root, Hnames.
      * eapply occurs_within; [done|by apply Hwf|].
        by apply relOf_not_root, Hnames.
    + intros c' _. apply walk_SkipDir.
Qed.

(** *** Below an excluded directory *)

Lemma chain_within rel n chain fname frel d :
  occurs rel n chain fname frel → wellFormed n = true → rel ≠ "." →
  d ∈ chain → within rel d.2.
Proof.
  induction 1 as [rel name|rel name readable es c chain fname frel Hc _ IH];
    intros Hwf Hrel Hd; [by apply elem_of_nil in Hd|].
  apply elem_of_cons in Hd as [->|Hd]; [apply within_refl|].
  apply wellFormed_Dir in Hwf as (_ & Hnames & Hwf).
  rewrite Forall_forall in Hnames, Hwf.
  eapply within_child; [done|]. apply IH; [by apply Hwf| |done].
  by apply relOf_not_root, Hnames.
Qed.

(** The only event at or below an excluded directory is the one that prunes
    it: the walk does not descend. *)
Lemma walk_not_below rel n chain fname frel :
  occurs rel n chain fname frel → wellFormed n = true →
  ∀ path d e,
    d ∈ chain → excluded d.1 d.2 = true →
    e ∈ (walk path rel n).1 → within d.2 (evRel e) → e = PruneDir d.2.
Proof.
  induction 1 as [rel name|rel name readable es c chain fname frel Hc Hocc IH];
    intros Hwf path d e Hd Hex He Hin; [by apply elem_of_nil in Hd|].
  apply wellFormed_Dir in Hwf as (Hnd & Hnames & Hwf).
  rewrite Forall_forall in Hnames, Hwf.
  assert (relOf rel (nodeName c) ≠ ".") as Hrc
    by by apply relOf_not_root, Hnames.
  rewrite walk_Dir in He. destruct readable; cbn [negb fst] in He;
    [|by apply elem_of_nil in He].
  destruct (excluded name rel) eqn:Hex0; cbn [fst] in He.
  - apply list_elem_of_singleton in He as ->. cbn [evRel] in Hin.
    apply elem_of_cons in Hd as [->|Hd]; [done|].
    destruct (child_not_above rel (nodeName c)); [by apply Hnames|].
    eapply within_trans; [|exact Hin]. by eapply chain_within; eauto.
  - apply elem_of_cons in Hd as [->|Hd]; [cbn in Hex; congruence|].
    apply walkEntries_elem in He as (c' & Hc' & He).
    assert (within (relOf rel (nodeName c)) (evRel e)) as Hbelow.
    { eapply within_trans; [|exact Hin]. by eapply chain_within; eauto. }
    assert (nodeName c' = nodeName c) as Hn.
    { eapply (siblings_apart rel _ _ (evRel e));
        [by apply entryName_noSeparator, Hnames
        |by apply entryName_noSeparator, Hnames| |done].
      eapply walk_within; [by apply Hwf| |done].
      by apply relOf_not_root, Hnames. }
    assert (c' = c) as -> by by eapply NoDup_names_eq.
    eapply IH; eauto.
Qed.

End Walk.
End TreeFacts.

(** ** From the walk to the files of a run *)

Module RunFacts.
Import Strs Exclude Proc Tree Conc ProcFacts ConcFacts TreeFacts.

Lemma records_elem fs rc jobs fc :
  fc ∈ records fs rc jobs ↔
  ∃ j, j ∈ jobs ∧ fc ∈ appended (exec fs (processFile j.1 j.2 rc)).
Proof.
  unfold records. rewrite list_elem_of_In, in_flat_map.
  by setoid_rewrite list_elem_of_In.
Qed.

Lemma dispatched_elem trace path rel :
  (path, rel) ∈ dispatched trace ↔ Dispatch path rel ∈ trace.
Proof.
  unfold dispatched. rewrite list_elem_of_omap. split.
  - intros (e & He & Hd). destruct e; by simplify_eq.
  - intros He. by exists (Dispatch path rel).
Qed.

(** A record in the files of a run comes from a goroutine the walk started
    for its path. *)
Lemma files_dispatched fs rc trace failed sched s fc :
  run fs rc sched (init (dispatched trace) failed) = Some s →
  fc ∈ files s → (0 < dispatches (Path fc) trace)%nat.
Proof.
  intros Hrun Hfc. eapply run_files_sub in Hfc; [|done].
  apply records_elem in Hfc as ([path rel] & Hj & Hfc).
  apply appended_path in Hfc as ->. apply dispatched_elem in Hj.
  eapply (count_some (isDispatchOf rel)); [done|]. cbn.
  apply String.eqb_refl.
Qed.

(** Without reading the content, a goroutine only asks for the file's size. *)
Lemma io_list_mode fs path rel :
  io (exec fs (processFile path rel false)) = [IOStat path].
Proof.
  destruct (outcome_cases fs path false) as [H|size H Hgt|size H Hle ? Hr|size H Hle Hr].
  - by rewrite exec_stat_failed.
  - by erewrite exec_oversize.
  - done.
  - by erewrite exec_list_mode.
Qed.

Lemma run_ios_sub fs rc jobs failed sched s e :
  run fs rc sched (init jobs failed) = Some s →
  e ∈ ios s →
  ∃ j, j ∈ jobs ∧ e ∈ io (exec fs (processFile j.1 j.2 rc)).
Proof.
  intros Hrun He.
  pose proof (run_ahead fs rc ios _ (ios_ahead fs rc) _ _ _ Hrun) as Hperm.
  assert (e ∈ ios (init jobs failed)
              ++ flat_map (λ p, io (exec fs p)) (ahead rc (init jobs failed)))
    as Hin.
  { rewrite <- Hperm. apply elem_of_app. by left. }
  cbn in Hin. unfold ahead in Hin. cbn in Hin.
  apply list_elem_of_In, in_flat_map in Hin as (p & Hp & Hin).
  apply in_map_iff in Hp as (j & <- & Hj).
  exists j. by rewrite !list_elem_of_In.
Qed.

End RunFacts.

(** ** The definitions on the sample project *)

Module Checks.
Import Strs Exclude Proc Tree Cli Conc.

Example HasSuffix_json : HasSuffix "package.json" ".json" = true.
Proof. reflexivity. Qed.

Example HasSuffix_short : HasSuffix "son" ".json" = false.
Proof. reflexivity. Qed.

Example HasPrefix_env : HasPrefix ".env.local" ".env" = true.
Proof. reflexivity. Qed.

Example exclude_top_build :
  shouldExclude [] "x.o" "build/x.o" Sample.noMatch = true.
Proof. reflexivity. Qed.

Example include_nested_source :
  shouldExclude [] "main.go" "src/main.go" Sample.noMatch = false.
Proof. reflexivity. Qed.

Example exclude_custom :
  shouldExclude [λ rel, HasSuffix rel ".md"] "README.md" "README.md"
    Sample.noMatch = true.
Proof. reflexivity. Qed.

Example walk_sample :
  Walk [] Sample.noMatch "/proj" Sample.tree
  = ([ Dispatch "/proj/a.txt" "a.txt"; PruneDir "build";
       Dispatch "/proj/src/main.go" "src/main.go";
       ExcludeFile "src/out"; ExcludeFile "trace.log" ], None).
Proof. reflexivity. Qed.

(** An unreadable directory ends the walk, also when its name is excluded:
    the names are read before the callback sees the directory. *)
Example walk_unreadable :
  Walk [] Sample.noMatch "/proj"
    (Dir "proj" true [File "a.txt"; Dir ".git" false []; File "b.txt"])
  = ([Dispatch "/proj/a.txt" "a.txt"], Some (WalkFail "/proj/.git")).
Proof. reflexivity. Qed.

Example process_text :
  exec Sample.fs (processFile "/proj/a.txt" "a.txt" true)
  = mkEffects [mkFileContent "a.txt" "hello"] []
      [IOStat "/proj/a.txt"; IORead "/proj/a.txt"] ["a.txt"].
Proof. reflexivity. Qed.

Example process_binary :
  exec Sample.fs (processFile "/proj/bin.dat" "bin.dat" true)
  = mkEffects [mkFileContent "bin.dat" ""] []
      [IOStat "/proj/bin.dat"; IORead "/proj/bin.dat"] ["bin.dat"].
Proof. reflexivity. Qed.

Example run_sample :
  files <$> run Sample.fs true Sample.secondThenFirst
              (init [("/proj/a.txt", "a.txt"); ("/proj/bin.dat", "bin.dat")]
                 false)
  = Some [mkFileContent "bin.dat" ""; mkFileContent "a.txt" "hello"].
Proof. reflexivity. Qed.

Example action_list_format_value :
  Action false (λ _, None) "proj" "list" false [] = inl ErrInvalidFormat.
Proof. reflexivity. Qed.

End Checks.

(** * The claims *)

Import Strs Exclude Proc Tree Cli Conc Run.
Import ProcFacts ConcFacts TreeFacts RunFacts.

(** ** C1: every file is classified once *)

(** C1: in a walk that ends without an error, every file below the root is
    met by the callback at most once. When a directory on the way down to it
    is excluded, the walk does not descend: the only event at or below that
    directory is the one that prunes it, there is no event for the file, and
    no run has a record of it. Otherwise the file has exactly one event: it
    is dropped when [shouldExclude] answers [true] for it, and a goroutine
    running [processFile] is started for it when the answer is [false]. *)
Theorem C1_each_file_classified_once customExcludePatterns matcher fs rc root
    tree trace chain fname frel :
  wellFormed tree = true →
  Walk customExcludePatterns matcher root tree = (trace, None) →
  occurs "." tree chain fname frel →
  (if pruned customExcludePatterns matcher chain
   then dispatches frel trace = 0 ∧ exclusions frel trace = 0
   else if shouldExclude customExcludePatterns fname frel matcher
   then dispatches frel trace = 0 ∧ exclusions frel trace = 1
   else dispatches frel trace = 1 ∧ exclusions frel trace = 0)
  ∧ (∀ d e,
       d ∈ chain → shouldExclude customExcludePatterns d.1 d.2 matcher = true →
       e ∈ trace → within d.2 (evRel e) → e = PruneDir d.2)
  ∧ (pruned customExcludePatterns matcher chain = true →
     ∀ sched s,
       run fs rc sched (init (dispatched trace) false) = Some s →
       ∀ fc, fc ∈ files s → Path fc ≠ frel).
Proof.
  intros Hwf Hwalk Hocc. unfold Walk in Hwalk.
  destruct (walk customExcludePatterns matcher root "." tree) as [tr r] eqn:Hw.
  assert (tr = trace ∧ ¬ isFail r) as [-> Hok].
  { destruct r as [[|path]|]; simplify_eq; split; try done;
      intros [path Hp]; discriminate. }
  assert (∀ d e,
            d ∈ chain →
            shouldExclude customExcludePatterns d.1 d.2 matcher = true →
            e ∈ trace → within d.2 (evRel e) → e = PruneDir d.2) as Hbelow.
  { intros d e Hd Hex He Hin.
    eapply (walk_not_below customExcludePatterns matcher "." tree); eauto.
    by rewrite Hw. }
  set (ex := shouldExclude customExcludePatterns fname frel matcher).
  pose proof (walk_count customExcludePatterns matcher (isDispatchOf frel)
                (if ex then 0 else 1) "." tree chain fname frel Hocc Hwf)
    as Hd.
  pose proof (walk_count customExcludePatterns matcher (isExcludeOf frel)
                (if ex then 1 else 0) "." tree chain fname frel Hocc Hwf)
    as He.
  destruct Hd with (path := root) as [_ Hd'].
  { intros [] H; try done. by apply String.eqb_eq in H. }
  { done. }
  { intros path. unfold walkFn. fold ex. destruct ex; [done|].
    cbn [negb fst]. rewrite count_singleton. cbn. by rewrite String.eqb_refl. }
  destruct He with (path := root) as [_ He'].
  { intros [] H; try done. by apply String.eqb_eq in H. }
  { done. }
  { intros path. unfold walkFn. fold ex. destruct ex; [|done].
    cbn [negb fst]. rewrite count_singleton. cbn. by rewrite String.eqb_refl. }
  rewrite Hw in Hd', He'. cbn [fst snd] in Hd', He'.
  specialize (Hd' Hok). specialize (He' Hok).
  unfold dispatches, exclusions.
  split_and!; [|exact Hbelow|].
  - destruct (pruned customExcludePatterns matcher chain); [done|].
    by destruct ex.
  - intros Hpr sched s Hrun fc Hfc Hpath. rewrite Hpr in Hd'.
    eapply files_dispatched in Hfc; [|done]. rewrite Hpath in Hfc.
    unfold dispatches in Hfc.
    lia.
Qed.

Lemma C1_each_file_classified_once_witness :
  let trace := (Walk [] Sample.noMatch "/proj" Sample.tree).1 in
  (dispatches "src/main.go" trace = 1 ∧ exclusions "src/main.go" trace = 0)
  ∧ (dispatches "build/out.o" trace = 0 ∧ exclusions "build/out.o" trace = 0).
Proof.
  split.
  - refine (proj1 (C1_each_file_classified_once [] Sample.noMatch Sample.fs true
                     "/proj" Sample.tree _ [("proj", "."); ("src", "src")]
                     "main.go" "src/main.go" _ _ _)).
    + reflexivity.
    + reflexivity.
    + eapply occurs_below; [apply elem_of_cons; right; apply elem_of_cons;
                             right; by left|].
      eapply occurs_below; [by left|]. apply occurs_here.
  - refine (proj1 (C1_each_file_classified_once [] Sample.noMatch Sample.fs true
                     "/proj" Sample.tree _ [("proj", "."); ("build", "build")]
                     "out.o" "build/out.o" _ _ _)).
    + reflexivity.
    + reflexivity.
    + eapply occurs_below; [apply elem_of_cons; right; by left|].
      eapply occurs_below; [by left|]. apply occurs_here.
Defined.

(** ** C2: the progress notification *)

(** C2, as stated, fails: a file whose [os.Stat] fails is dispatched, is
    logged, and returns before the send on the progress channel, so no
    notification is sent for it. *)
Lemma C2_counterexample :
  stat Sample.fs "/proj/gone.txt" = None
  ∧ sent (exec Sample.fs (processFile "/proj/gone.txt" "gone.txt" true)) = []
  ∧ sent (exec Sample.fs (processFile "/proj/gone.txt" "gone.txt" true))
    ≠ ["gone.txt"].
Proof. by vm_compute. Qed.

(** C2, amended: [processFile] sends the relative path on the progress
    channel exactly when it appends a record, once and after the append; it
    sends nothing when the file is skipped for a stat failure, for its size
    or for a read failure. *)
Theorem C2_notification_iff_record fs path rel rc :
  let e := exec fs (processFile path rel rc) in
  sent e = map Path (appended e)
  ∧ (sent e = [rel] ∨ sent e = [])
  ∧ (sent e = [rel] ↔
     ∃ size, stat fs path = Some size ∧ (size ≤ maxFileSize)%Z
             ∧ (rc = true → is_Some (readFile fs path))).
Proof.
  intros e. subst e.
  destruct (outcome_cases fs path rc) as [H|size H Hgt|size H Hle -> Hr|size H Hle Hr].
  - rewrite exec_stat_failed by done. cbn. split_and!; [done|by right|].
    split; [done|]. intros (size & Hs & _). congruence.
  - erewrite exec_oversize by done. cbn. split_and!; [done|by right|].
    split; [done|]. intros (size' & Hs & Hle & _).
    assert (size' = size) by congruence. lia.
  - erewrite exec_read_failed by done. cbn. split_and!; [done|by right|].
    split; [done|]. intros (size' & _ & _ & Hsome).
    destruct (Hsome eq_refl) as [content Hc]. congruence.
  - assert (sent (exec fs (processFile path rel rc)) = [rel]
            ∧ map Path (appended (exec fs (processFile path rel rc))) = [rel])
      as [Hs Ha].
    { destruct rc.
      - destruct Hr as [content Hr]; [done|]. erewrite exec_read by done. done.
      - erewrite exec_list_mode by done. done. }
    rewrite Hs, Ha. split_and!; [done|by left|]. split; [|done].
    intros _. by exists size.
Qed.

(** ** C3: the progress channel *)

(** C3, as stated, fails: the channel is made without a capacity. In the
    state reached below, the goroutine of the only file has appended its
    record and stands at its send while [showProgress] has not yet reached
    its receive; no step of the program completes the send there, so the
    goroutine waits for the reporter. *)
Lemma C3_counterexample :
  ∃ s, run Sample.fs false [ADispatch; AWorker 0; AWorker 0]
           (init [("/proj/a.txt", "a.txt")] false) = Some s
       ∧ workers s !! 0 = Some (Send "a.txt" Ret)
       ∧ rep s = RStart
       ∧ fire Sample.fs false (ARendezvous 0) s = None
       ∧ ∀ a s', fire Sample.fs false a s = Some s' →
                 workers s' !! 0 = Some (Send "a.txt" Ret).
Proof.
  eexists. split; [reflexivity|]. split_and!; [done..|].
  intros a s' Hfire.
  destruct a as [| |[|[|i]]|[|[|i]]| | | |]; cbn in Hfire; by simplify_eq.
Qed.

(** C3, amended: the progress channel has no buffer, so the send of a
    goroutine completes only in a rendezvous with the receive of
    [showProgress], and until then the goroutine waits. It never waits for
    good: while a goroutine stands at its send the reporter is before or
    inside its loop and the channel is open, and after at most one step of
    the reporter the rendezvous takes place. *)
Theorem C3_send_waits_for_receive fs rc jobs failed sched s i p k :
  run fs rc sched (init jobs failed) = Some s →
  running s = true →
  workers s !! i = Some (Send p k) →
  (∀ a s', fire fs rc a s = Some s' →
     workers s' !! i = Some (Send p k)
     ∨ (a = ARendezvous i ∧ rep s = RRecv ∧ workers s' !! i = Some k))
  ∧ closed s = false
  ∧ inLoop (rep s) = true
  ∧ ∃ s', (fire fs rc (ARendezvous i) s = Some s'
           ∨ ∃ s1, fire fs rc AReporter s = Some s1
                   ∧ fire fs rc (ARendezvous i) s1 = Some s')
          ∧ workers s' !! i = Some k.
Proof.
  intros Hrun Hrunning Hi.
  pose proof (run_consistent fs rc failed _ _ _ Hrun (init_consistent _ _)) as Hc.
  split_and!.
  - intros a s' Hfire. by eapply send_waits.
  - unfold consistent, running in *. destruct (coord s); try done; bools;
      try done; noWorkerLeft.
  - unfold consistent, running in *. destruct (coord s); try done; bools;
      try done; noWorkerLeft.
  - by eapply send_served.
Qed.

Lemma C3_send_waits_for_receive_witness :
  ∃ s s', run Sample.fs false [ADispatch; AWorker 0; AWorker 0]
              (init [("/proj/a.txt", "a.txt")] false) = Some s
          ∧ (fire Sample.fs false (ARendezvous 0) s = Some s'
             ∨ ∃ s1, fire Sample.fs false AReporter s = Some s1
                     ∧ fire Sample.fs false (ARendezvous 0) s1 = Some s')
          ∧ workers s' !! 0 = Some Ret.
Proof.
  eexists.
  destruct (C3_send_waits_for_receive Sample.fs false
              [("/proj/a.txt", "a.txt")] false
              [ADispatch; AWorker 0; AWorker 0] _ 0 "a.txt" Ret
              eq_refl eq_refl eq_refl) as (_ & _ & _ & s' & Hs').
  exists s'. split; [reflexivity|exact Hs'].
Defined.

(** ** C4: the binary check *)

(** C4: for a file that reaches the check (its size is within the limit and
    it is read), [isBinary] looks at the first 1024 bytes only. With a zero
    byte among them the record carries the path and no content, and the JSON
    object has no [content] key; without one, also when a zero byte follows
    later, the whole content is attached. *)
Theorem C4_binary_sample fs path rel size content :
  stat fs path = Some size → (size ≤ maxFileSize)%Z →
  readFile fs path = Some content →
  isBinary content = existsb (λ b, Byte.eqb b x00) (take 1024 content)
  ∧ (x00 ∈ take 1024 content →
     appended (exec fs (processFile path rel true)) = [mkFileContent rel ""]
     ∧ jsonObject (mkFileContent rel "") = [("path", rel)])
  ∧ (x00 ∉ take 1024 content →
     appended (exec fs (processFile path rel true))
     = [mkFileContent rel (String.string_of_list_byte content)]).
Proof.
  intros Hs Hle Hr. erewrite exec_read by done. cbn [appended].
  split_and!.
  - apply isBinary_sample.
  - intros Hin%isBinary_true. by rewrite Hin.
  - intros Hin%isBinary_false. by rewrite Hin.
Qed.

Lemma C4_binary_sample_witness :
  x00 ∈ replicate 1024 x61 ++ [x00]
  ∧ appended (exec Sample.fs (processFile "/proj/src/main.go" "src/main.go" true))
    = [mkFileContent "src/main.go"
         (String.string_of_list_byte (replicate 1024 x61 ++ [x00]))].
Proof.
  split; [apply elem_of_app; right; by left|].
  refine (proj2 (proj2 (C4_binary_sample Sample.fs "/proj/src/main.go"
                          "src/main.go" 1025 (replicate 1024 x61 ++ [x00])
                          _ _ _)) _).
  - reflexivity.
  - vm_compute. discriminate.
  - reflexivity.
  - apply isBinary_false. vm_compute. reflexivity.
Defined.

(** ** C5: the size limit *)

(** C5: the limit is 1048576 bytes and the comparison is strict. A file of
    exactly that size passes the check and, unless reading it fails, gives
    one record with its path. A file of 1048577 bytes or more is logged as
    skipped, is not read, gives no record and no notification, and no run
    has a record with its path among its files. *)
Theorem C5_size_limit fs path rel rc size :
  stat fs path = Some size →
  maxFileSize = 1048576%Z
  ∧ (size = 1048576%Z → rc = false ∨ is_Some (readFile fs path) →
     ∃ fc, appended (exec fs (processFile path rel rc)) = [fc]
           ∧ Path fc = rel
           ∧ logged (exec fs (processFile path rel rc)) = [])
  ∧ ((1048577 ≤ size)%Z →
     exec fs (processFile path rel rc)
     = mkEffects [] [LogSkipLarge path size] [IOStat path] []
     ∧ ∀ jobs failed sched s,
         (∀ j, j ∈ jobs → j.2 = rel → j.1 = path) →
         run fs rc sched (init jobs failed) = Some s →
         ∀ fc, fc ∈ files s → Path fc ≠ rel).
Proof.
  intros Hs. split_and!; [done| |].
  - intros -> Hr.
    assert (exec fs (processFile path rel rc)
            = mkEffects [mkFileContent rel (Content (mkFileContent rel ""))]
                [] [IOStat path] [rel]
            ∨ ∃ c, exec fs (processFile path rel rc)
                   = mkEffects [mkFileContent rel c] []
                       [IOStat path; IORead path] [rel]) as Hexec.
    { destruct rc.
      - destruct Hr as [?|[content Hr]]; [done|]. right.
        erewrite exec_read by done. by eexists.
      - left. by erewrite exec_list_mode. }
    destruct Hexec as [->|[c ->]]; by eexists.
  - intros Hge.
    assert (exec fs (processFile path rel rc)
            = mkEffects [] [LogSkipLarge path size] [IOStat path] []) as Hexec.
    { eapply exec_oversize; [done|]. unfold maxFileSize. lia. }
    split; [done|]. intros jobs failed sched s Hjobs Hrun fc Hfc Hpath.
    eapply run_files_sub in Hfc; [|done].
    apply records_elem in Hfc as ([path' rel'] & Hj & Hfc).
    pose proof (appended_path _ _ _ _ _ Hfc) as Hrel. cbn [fst snd] in Hrel, Hfc.
    assert (rel' = rel) as -> by congruence.
    pose proof (Hjobs _ Hj eq_refl) as Hp. cbn [fst snd] in Hp. subst path'.
    rewrite Hexec in Hfc. by apply elem_of_nil in Hfc.
Qed.

Lemma C5_size_limit_witness :
  (∃ fc, appended (exec Sample.fs (processFile "/proj/edge.bin" "edge.bin" false))
         = [fc]
         ∧ Path fc = "edge.bin"
         ∧ logged (exec Sample.fs (processFile "/proj/edge.bin" "edge.bin" false))
           = [])
  ∧ exec Sample.fs (processFile "/proj/big.bin" "big.bin" true)
    = mkEffects [] [LogSkipLarge "/proj/big.bin" 1048577] [IOStat "/proj/big.bin"] [].
Proof.
  split.
  - refine (proj1 (proj2 (C5_size_limit Sample.fs "/proj/edge.bin" "edge.bin"
                            false 1048576 _)) _ _).
    + reflexivity.
    + reflexivity.
    + left. reflexivity.
  - refine (proj1 (proj2 (proj2 (C5_size_limit Sample.fs "/proj/big.bin"
                                   "big.bin" true 1048577 _)) _)).
    + reflexivity.
    + lia.
Defined.

(** ** C6: the list format *)

(** C6, as stated, fails: the line [outputList] writes for a record is not
    the relative path alone, it starts with a dash and a space. *)
Lemma C6_counterexample :
  outputList [mkFileContent "a.txt" ""] = "- a.txt" +:+ nl
  ∧ outputList [mkFileContent "a.txt" ""] ≠ "a.txt" +:+ nl.
Proof. by vm_compute. Qed.

(** C6, amended: in the list format [outputList] writes, for every record
    in turn, a dash, a space, the relative path and a line end, and nothing
    of the content; the goroutine of a file asks only for the file's size
    and leaves the content of its record empty, and no run in list format
    ever reads a file. *)
Theorem C6_list_format :
  outputList [] = ""
  ∧ (∀ file files,
       outputList (file :: files)
       = "- " +:+ Path file +:+ nl +:+ outputList files)
  ∧ (∀ files,
       outputList files
       = outputList (map (λ file, mkFileContent (Path file) "") files))
  ∧ (∀ fs path rel,
       io (exec fs (processFile path rel (negb (String.eqb "list" "list"))))
       = [IOStat path]
       ∧ ∀ fc, fc ∈ appended (exec fs (processFile path rel
                                         (negb (String.eqb "list" "list")))) →
               fc = mkFileContent rel "")
  ∧ (∀ fs jobs failed sched s path,
       run fs (negb (String.eqb "list" "list")) sched (init jobs failed) = Some s →
       IORead path ∉ ios s).
Proof.
  change (negb (String.eqb "list" "list")) with false. split_and!.
  - done.
  - apply outputList_cons.
  - apply outputList_paths.
  - intros fs path rel. split; [apply io_list_mode|]. intros fc.
    destruct (outcome_cases fs path false) as [H|size H Hgt|size H Hle ? Hr|size H Hle Hr].
    + rewrite exec_stat_failed by done. by intros ?%elem_of_nil.
    + erewrite exec_oversize by done. by intros ?%elem_of_nil.
    + done.
    + erewrite exec_list_mode by done. cbn. by intros ->%list_elem_of_singleton.
  - intros fs jobs failed sched s path Hrun Hin.
    eapply run_ios_sub in Hin as (j & _ & Hin); [|done].
    rewrite io_list_mode in Hin. by apply list_elem_of_singleton in Hin.
Qed.

(** ** C7: the format selector *)

(** C7, as stated, fails: with the list flag set the format value is not
    checked, so an invocation with the unrecognized value [xml] goes on to
    [listFiles]. *)
Lemma C7_counterexample :
  ("xml" ∉ recognizedFormats)
  ∧ main false (λ _, None) "proj" "xml" true [] = CallListFiles "proj" "list" [].
Proof.
  split; [|reflexivity]. unfold recognizedFormats.
  rewrite !elem_of_cons, elem_of_nil. intros [?|[?|[?|[]]]]; discriminate.
Qed.

(** C7, amended: without the list flag, every format value other than
    [text] and [json] (the value [list] among them) makes the action return
    an error, so that the process ends with status 1 and [listFiles] is not
    called; with the list flag the format value is not looked at, and the
    call is made with the format [list] when the directory exists and the
    patterns compile. *)
Theorem C7_format_checked_without_list_flag dirNotExist compile directory format
    excludePatterns :
  (format ≠ "text" → format ≠ "json" →
   ∃ e, main dirNotExist compile directory format false excludePatterns
        = Fatal 1 e)
  ∧ (∀ globs, dirNotExist = false →
       compileAll compile [] excludePatterns = inr globs →
       main dirNotExist compile directory format true excludePatterns
       = CallListFiles directory "list" globs).
Proof.
  unfold main, Action. split.
  - intros Ht%String.eqb_neq Hj%String.eqb_neq. rewrite Ht, Hj. cbn.
    destruct dirNotExist; by eexists.
  - intros globs -> Hc. cbn. by rewrite Hc.
Qed.

Lemma C7_format_checked_without_list_flag_witness :
  ∃ e, main false (λ _, None) "proj" "list" false [] = Fatal 1 e.
Proof.
  refine (proj1 (C7_format_checked_without_list_flag false (λ _, None) "proj"
                   "list" []) _ _); discriminate.
Defined.

(** ** C8: failures of a single file *)

(** C8: when, for a file a goroutine was started for, [os.Stat] fails, the
    size is over the limit, or the read fails, [processFile] writes one log
    line, appends no record and returns. The run goes on: it cannot end in
    the abort, it can always be brought to its end, [listFiles] returns an
    output and never an error, and every record among the files comes from
    the goroutine of another file. *)
Theorem C8_file_failure_is_skipped customExcludePatterns matcher fs tree baseDir
    format path rel :
  let rc := negb (String.eqb format "list") in
  let walked := Walk customExcludePatterns matcher baseDir tree in
  walked.2 = None →
  Dispatch path rel ∈ walked.1 →
  stat fs path = None
  ∨ (∃ size, stat fs path = Some size ∧ (size > maxFileSize)%Z)
  ∨ (rc = true ∧ readFile fs path = None) →
  (appended (exec fs (processFile path rel rc)) = []
   ∧ sent (exec fs (processFile path rel rc)) = []
   ∧ ∃ entry, logged (exec fs (processFile path rel rc)) = [entry]
              ∧ (entry = LogStatError path ∨ entry = LogReadError path
                 ∨ ∃ size, entry = LogSkipLarge path size))
  ∧ (∀ sched s,
       run fs rc sched (init (dispatched walked.1) false) = Some s →
       coord s ≠ CAbort
       ∧ (∃ sched' s', run fs rc sched' s = Some s' ∧ coord s' = CFinished)
       ∧ ∀ fc, fc ∈ files s →
           ∃ j, j ∈ dispatched walked.1 ∧ j ≠ (path, rel)
                ∧ fc ∈ appended (exec fs (processFile j.1 j.2 rc)))
  ∧ (∀ res,
       listFiles customExcludePatterns (GitMatcher matcher) fs tree baseDir
         format res →
       ∃ out, res = inr out).
Proof.
  intros rc walked Hok Hd Hfail.
  assert (appended (exec fs (processFile path rel rc)) = []
          ∧ sent (exec fs (processFile path rel rc)) = []
          ∧ ∃ entry, logged (exec fs (processFile path rel rc)) = [entry]
              ∧ (entry = LogStatError path ∨ entry = LogReadError path
                 ∨ ∃ size, entry = LogSkipLarge path size)) as Hskip.
  { destruct (outcome_cases fs path rc)
      as [H|size H Hgt|size H Hle Hrc Hr|size H Hle Hr].
    - rewrite exec_stat_failed by done. split_and!; [done..|].
      eexists. split; [done|]. by left.
    - erewrite exec_oversize by done. split_and!; [done..|].
      eexists. split; [done|]. right. right. by eexists.
    - rewrite Hrc. erewrite exec_read_failed by done. split_and!; [done..|].
      eexists. split; [done|]. right. by left.
    - destruct Hfail as [Hf|[(size' & Hf & Hgt)|[Hrc Hf]]].
      + congruence.
      + assert (size' = size) by congruence. lia.
      + destruct (Hr Hrc) as [content Hc]. congruence. }
  split; [exact Hskip|split].
  - intros sched s Hrun.
    pose proof (run_consistent fs rc false _ _ _ Hrun (init_consistent _ _))
      as Hc.
    split_and!.
    + by apply not_failed_not_abort.
    + destruct (run_ends fs rc false s Hc) as (sched' & s' & Hrun' & Hend).
      exists sched', s'. split; [done|].
      assert (consistent false s' = true) as Hc' by by eapply run_consistent.
      unfold running in Hend. unfold consistent in Hc'.
      by destruct (coord s').
    + intros fc Hfc. eapply run_files_sub in Hfc; [|done].
      apply records_elem in Hfc as (j & Hj & Hfc).
      exists j. split_and!; [done| |done]. intros ->. cbn [fst snd] in Hfc.
      destruct Hskip as (Hnone & _). rewrite Hnone in Hfc.
      by apply elem_of_nil in Hfc.
  - intros res. unfold listFiles. fold walked.
    destruct walked as [trace err] eqn:Hw. cbn [fst snd] in *. subst err.
    intros (sched & s & Hrun & Hres). fold rc in Hrun.
    pose proof (run_consistent fs rc _ _ _ _ Hrun (init_consistent _ _)) as Hc.
    unfold consistent in Hc. destruct (coord s); try done. by eexists.
Qed.

Lemma C8_file_failure_is_skipped_witness :
  appended (exec Sample.fs (processFile "/proj/gone.txt" "gone.txt" true)) = []
  ∧ ∀ res,
      listFiles [] (GitMatcher Sample.noMatch) Sample.fs Sample.withGone "/proj"
        "text" res →
      ∃ out, res = inr out.
Proof.
  assert (Dispatch "/proj/gone.txt" "gone.txt"
          ∈ (Walk [] Sample.noMatch "/proj" Sample.withGone).1) as Hd.
  { vm_compute. right. by left. }
  destruct (C8_file_failure_is_skipped [] Sample.noMatch Sample.fs
              Sample.withGone "/proj" "text" "/proj/gone.txt" "gone.txt"
              eq_refl Hd (or_introl eq_refl)) as ((Hnone & _) & _ & Hres).
  split; [exact Hnone|exact Hres].
Defined.

(** ** C9: two runs on the same tree *)

(** C9: two runs on the same tree, with the same patterns, the same format
    and the same answers of the file system, end with the same records: the
    files of one are a rearrangement of the files of the other, and both are
    a rearrangement of the records of the eligible files in walk order. The
    order depends on the schedule. *)
Theorem C9_same_records_any_order customExcludePatterns matcher fs rc root tree
    sched1 sched2 s1 s2 :
  let walked := Walk customExcludePatterns matcher root tree in
  let start := init (dispatched walked.1) (bool_decide (is_Some walked.2)) in
  run fs rc sched1 start = Some s1 → coord s1 = CFinished →
  run fs rc sched2 start = Some s2 → coord s2 = CFinished →
  files s1 ≡ₚ files s2
  ∧ (∀ fc, fc ∈ files s1 ↔ fc ∈ files s2)
  ∧ files s1 ≡ₚ records fs rc (dispatched walked.1).
Proof.
  intros walked start Hrun1 Hfin1 Hrun2 Hfin2.
  pose proof (finished_files fs rc _ _ _ _ Hrun1 Hfin1) as H1.
  pose proof (finished_files fs rc _ _ _ _ Hrun2 Hfin2) as H2.
  assert (files s1 ≡ₚ files s2) as Hperm by by rewrite H1, H2.
  split_and!; [done| |done]. intros fc. by rewrite Hperm.
Qed.

Lemma C9_same_records_any_order_witness :
  ∃ s1 s2,
    run Sample.fs true Sample.firstThenSecond
        (init (dispatched (Walk [] Sample.noMatch "/proj" Sample.twoFiles).1)
           false) = Some s1
    ∧ run Sample.fs true Sample.secondThenFirst
          (init (dispatched (Walk [] Sample.noMatch "/proj" Sample.twoFiles).1)
             false) = Some s2
    ∧ files s1 ≠ files s2
    ∧ files s1 ≡ₚ files s2.
Proof.
  destruct (run Sample.fs true Sample.firstThenSecond
              (init (dispatched (Walk [] Sample.noMatch "/proj" Sample.twoFiles).1)
                 false)) as [s1|] eqn:H1; [|vm_compute in H1; discriminate].
  destruct (run Sample.fs true Sample.secondThenFirst
              (init (dispatched (Walk [] Sample.noMatch "/proj" Sample.twoFiles).1)
                 false)) as [s2|] eqn:H2; [|vm_compute in H2; discriminate].
  exists s1, s2. split; [reflexivity|]. split; [reflexivity|].
  assert (coord s1 = CFinished) as Hfin1.
  { vm_compute in H1. by injection H1 as <-. }
  assert (coord s2 = CFinished) as Hfin2.
  { vm_compute in H2. by injection H2 as <-. }
  split.
  - vm_compute in H1, H2. injection H1 as <-. injection H2 as <-. discriminate.
  - exact (proj1 (C9_same_records_any_order [] Sample.noMatch Sample.fs true
                    "/proj" Sample.twoFiles Sample.firstThenSecond
                    Sample.secondThenFirst s1 s2 H1 Hfin1 H2 Hfin2)).
Defined.

(** ** C10: entries named like an excluded directory *)

(** C10: [shouldExclude] answers [true] for every entry whose name is one of
    the twelve built-in directory names, without looking at whether the entry
    is a directory. A file with such a name is dropped by the callback, the
    walk starts no goroutine for it, and no run has a record of it. *)
Theorem C10_excluded_name_on_file customExcludePatterns matcher name rel :
  name ∈ excludedDirs →
  excludedDirs
  = [ ".git"; "node_modules"; "build"; "dist"; "out"; ".cache"; ".tmp";
      ".vscode"; ".idea"; ".next"; "public"; ".terraform" ]
  ∧ shouldExclude customExcludePatterns name rel matcher = true
  ∧ (∀ path, walkFn customExcludePatterns matcher path rel name false false
             = ([ExcludeFile rel], None))
  ∧ (∀ root tree chain fs rc sched s,
       wellFormed tree = true →
       occurs "." tree chain name rel →
       let trace := (Walk customExcludePatterns matcher root tree).1 in
       dispatches rel trace = 0
       ∧ (run fs rc sched
              (init (dispatched trace)
                 (bool_decide
                    (is_Some (Walk customExcludePatterns matcher root tree).2)))
          = Some s →
          ∀ fc, fc ∈ files s → Path fc ≠ rel)).
Proof.
  intros Hname.
  assert (shouldExclude customExcludePatterns name rel matcher = true) as Hex.
  { unfold shouldExclude.
    assert (existsb (λ dir, String.eqb name dir
                            || HasPrefix rel (dir +:+ PathSeparator))
              excludedDirs = true) as ->; [|done].
    apply existsb_exists. exists name. split; [by apply list_elem_of_In|].
    by rewrite String.eqb_refl. }
  split_and!; [done|done| |].
  - intros path. unfold walkFn. by rewrite Hex.
  - intros root tree chain fs rc sched s Hwf Hocc trace.
    assert (dispatches rel trace = 0) as Hzero.
    { subst trace. unfold Walk.
      pose proof (walk_count customExcludePatterns matcher
                    (isDispatchOf rel) 0 "." tree chain name rel Hocc Hwf)
        as Hcount.
      destruct (Hcount) with (path := root) as [Hle _].
      - intros [] He; try done. by apply String.eqb_eq in He.
      - done.
      - intros path. unfold walkFn. by rewrite Hex.
      - destruct (walk customExcludePatterns matcher root "." tree) as [tr r].
        cbn [fst] in *. unfold dispatches.
        destruct (pruned customExcludePatterns matcher chain); lia. }
    split; [done|]. intros Hrun fc Hfc Hpath.
    eapply files_dispatched in Hfc; [|done]. rewrite Hpath in Hfc. lia.
Qed.

Lemma C10_excluded_name_on_file_witness :
  shouldExclude [] "out" "src/out" Sample.noMatch = true
  ∧ dispatches "src/out" (Walk [] Sample.noMatch "/proj" Sample.tree).1 = 0.
Proof.
  assert ("out" ∈ excludedDirs) as Hname.
  { unfold excludedDirs. rewrite !elem_of_cons. tauto. }
  pose proof (C10_excluded_name_on_file [] Sample.noMatch "out" "src/out" Hname)
    as (_ & Hex & _ & Hwalk).
  split; [exact Hex|].
  refine (proj1 (Hwalk "/proj" Sample.tree [("proj", "."); ("src", "src")]
                   Sample.fs true [] (init [] false) _ _)).
  - reflexivity.
  - eapply occurs_below; [apply elem_of_cons; right; apply elem_of_cons; right;
                           by left|].
    eapply occurs_below; [apply elem_of_cons; right; by left|].
    apply occurs_here.
Defined.

(** * Further properties *)

(** ** Prefixes and suffixes *)

Module StrsFacts.
Import Strs Exclude Notions TreeFacts.

Lemma substring_prefix (pre t : string) :
  String.substring 0 (String.length pre) (pre +:+ t) = pre.
Proof.
  induction pre as [|c pre IH]; [by destruct t|].
  rewrite str_app_cons. cbn [String.length String.substring]. by rewrite IH.
Qed.

Lemma substring_prefix_inv (pre s : string) :
  String.substring 0 (String.length pre) s = pre → ∃ t, s = pre +:+ t.
Proof.
  revert s. induction pre as [|c pre IH]; intros s; [by exists s|].
  destruct s as [|c' s]; cbn [String.length String.substring]; [done|].
  intros Heq. injection Heq as -> Heq. destruct (IH _ Heq) as [t ->].
  by exists t.
Qed.

Lemma HasPrefix_startsWith s pre : HasPrefix s pre = true ↔ startsWith s pre.
Proof.
  unfold HasPrefix, startsWith. rewrite andb_true_iff, String.eqb_eq. split.
  - intros [_ Heq]. by apply substring_prefix_inv.
  - intros [t ->]. split; [|apply substring_prefix].
    apply Nat.leb_le. rewrite str_length_app. lia.
Qed.

Lemma substring_skip (t u : string) m :
  String.substring (String.length t) m (t +:+ u) = String.substring 0 m u.
Proof.
  induction t as [|c t IH]; [done|].
  rewrite str_app_cons. cbn [String.length String.substring]. apply IH.
Qed.

Lemma substring_full (u : string) :
  String.substring 0 (String.length u) u = u.
Proof.
  rewrite <- (str_app_nil_r u) at 2. apply substring_prefix.
Qed.

Lemma split_at (s : string) (n : nat) :
  (n ≤ String.length s)%nat → ∃ t u, s = t +:+ u ∧ String.length t = n.
Proof.
  revert s. induction n as [|n IH]; intros s Hn; [by exists "", s|].
  destruct s as [|c s]; cbn [String.length] in Hn; [lia|].
  destruct (IH s) as (t & u & -> & Ht); [lia|].
  exists (String c t), u. split; [done|]. cbn. by rewrite Ht.
Qed.

Lemma HasSuffix_endsWith s suf : HasSuffix s suf = true ↔ endsWith s suf.
Proof.
  unfold HasSuffix, endsWith. rewrite andb_true_iff, String.eqb_eq, Nat.leb_le.
  split.
  - intros [Hlen Heq].
    destruct (split_at s (String.length s - String.length suf))
      as (t & u & -> & Ht); [lia|].
    exists t. f_equal. rewrite <- Ht, substring_skip in Heq.
    rewrite str_length_app in Ht, Hlen.
    assert (String.length suf = String.length u) as Hu by lia.
    rewrite Hu in Heq. by rewrite substring_full in Heq.
  - intros [t ->]. rewrite str_length_app. split; [lia|].
    replace (String.length t + String.length suf - String.length suf)
      with (String.length t) by lia.
    rewrite substring_skip. apply substring_full.
Qed.

End StrsFacts.

(** ** More on the exclusion evaluator *)

Module ExcludeFacts.
Import Strs Exclude Notions StrsFacts.

Lemma existsb_elem {A} (f : A → bool) (l : list A) :
  existsb f l = true ↔ ∃ x, x ∈ l ∧ f x = true.
Proof. rewrite existsb_exists. by setoid_rewrite list_elem_of_In. Qed.

Lemma if_true (b c : bool) : (if b then true else c) = true ↔ b = true ∨ c = true.
Proof. destruct b, c; intuition. Qed.

End ExcludeFacts.

Import Notions StrsFacts ExcludeFacts.

(** X1: [shouldExclude] answers [true] exactly when one of its six rules
    applies: the name is one of the built-in directory names or the relative
    path begins with such a name and a separator; the name ends with one of
    the built-in suffixes; the name begins with [.env]; the name is
    [.gitignore]; a custom pattern matches the relative path; the ignore
    matcher matches the relative path. *)
Theorem X1_shouldExclude_rules customExcludePatterns name rel matcher :
  shouldExclude customExcludePatterns name rel matcher = true ↔
    (∃ dir, dir ∈ excludedDirs
            ∧ (name = dir ∨ startsWith rel (dir +:+ PathSeparator)))
    ∨ (∃ pattern, pattern ∈ excludedPatterns ∧ endsWith name pattern)
    ∨ startsWith name ".env"
    ∨ name = ".gitignore"
    ∨ (∃ g : Glob, g ∈ customExcludePatterns ∧ g rel = true)
    ∨ matcher [rel] false = true.
Proof.
  unfold shouldExclude. rewrite !if_true, !existsb_elem.
  rewrite HasPrefix_startsWith, String.eqb_eq.
  setoid_rewrite orb_true_iff. setoid_rewrite String.eqb_eq.
  setoid_rewrite HasPrefix_startsWith. setoid_rewrite HasSuffix_endsWith.
  done.
Qed.

(** X2: more custom patterns never bring an excluded entry back: when every
    pattern of one list is in another, whatever the first list excludes the
    second excludes too. The order of the patterns and repetitions among
    them make no difference. *)
Theorem X2_custom_patterns_only_add (pats pats' : list Glob) name rel matcher :
  (∀ g, g ∈ pats → g ∈ pats') →
  shouldExclude pats name rel matcher = true →
  shouldExclude pats' name rel matcher = true.
Proof.
  intros Hsub. unfold shouldExclude. rewrite !if_true, !(existsb_elem _ pats),
    !(existsb_elem _ pats').
  intros [H|[H|[H|[H|[(g & Hg & Hm)|H]]]]].
  - by left.
  - right. by left.
  - do 2 right. by left.
  - do 3 right. by left.
  - do 4 right. left. exists g. auto.
  - by do 5 right.
Qed.

Lemma X2_custom_patterns_only_add_witness :
  shouldExclude [λ rel, HasSuffix rel ".css"; λ rel, HasSuffix rel ".md"]
    "README.md" "docs/README.md" Sample.noMatch = true.
Proof.
  refine (X2_custom_patterns_only_add [λ rel, HasSuffix rel ".md"] _ "README.md"
            "docs/README.md" Sample.noMatch _ _).
  - intros g ->%list_elem_of_singleton. right. by left.
  - reflexivity.
Defined.

(** ** More on the output functions *)

Module OutputFacts.
Import Strs Proc Notions TreeFacts.

Lemma lineEnds_app (a b : string) : lineEnds (a +:+ b) = lineEnds a + lineEnds b.
Proof.
  induction a as [|c a IH]; [done|].
  rewrite str_app_cons. cbn [lineEnds]. rewrite IH. lia.
Qed.

Lemma lineEnds_nl : lineEnds nl = 1.
Proof. reflexivity. Qed.

Lemma outputText_cons file files :
  outputText (file :: files)
  = nl +:+ "```" +:+ Path file +:+ nl +:+ Content file +:+ nl +:+ "```" +:+ nl
       +:+ outputText files.
Proof. reflexivity. Qed.

End OutputFacts.

Import OutputFacts.


(** X4: the text that [outputList] and [outputText] write for a list of
    records is the text for the first part followed by the text for the
    rest, and its line ends are counted by the records: one per record for
    the list, four per record for the text blocks, next to the line ends
    inside the paths and the contents themselves. *)
Theorem X4_output_lines files files' :
  outputList (files ++ files') = outputList files +:+ outputList files'
  ∧ outputText (files ++ files') = outputText files +:+ outputText files'
  ∧ lineEnds (outputList files)
    = length files + sum_list_with (λ file, lineEnds (Path file)) files
  ∧ lineEnds (outputText files)
    = 4 * length files
      + sum_list_with (λ file, lineEnds (Path file) + lineEnds (Content file))
          files.
Proof.
  split_and!.
  - induction files as [|file files IH]; [done|].
    cbn [app]. rewrite !outputList_cons, IH. by rewrite !str_app_assoc.
  - induction files as [|file files IH]; [done|].
    cbn [app]. rewrite !outputText_cons, IH. by rewrite !str_app_assoc.
  - induction files as [|file files IH]; [done|].
    rewrite outputList_cons, !lineEnds_app, IH, lineEnds_nl.
    cbn [length sum_list_with]. change (lineEnds "- ") with 0. lia.
  - induction files as [|file files IH]; [done|].
    rewrite outputText_cons, !lineEnds_app, IH, !lineEnds_nl.
    cbn [length sum_list_with]. change (lineEnds "```") with 0. lia.
Qed.

(** ** More on the goroutines *)

Module ConcMore.
Import Strs Exclude Proc Tree Conc Notions ProcFacts ConcFacts.

#[local] Opaque Nat.modulo Nat.div.

(** The cases of a step, by the action and by what it finds in the state. *)
Ltac stepCases Hfire :=
  unfold fire in Hfire;
  match type of Hfire with
  | (if running ?s then _ else _) = _ => destruct (running s); [|done]
  end;
  match type of Hfire with
  | context [match ?a with ADispatch => _ | _ => _ end] => destruct a
  end;
  unfold workerStep, rendezvous, reporterStep, coordStep in Hfire;
  cbn in Hfire; repeat case_match; simplify_eq/=.

(** *** One file, one record or one warning *)

Lemma sent_appended fs path rel rc :
  sent (exec fs (processFile path rel rc))
  = map Path (appended (exec fs (processFile path rel rc))).
Proof.
  destruct (outcome_cases fs path rc) as [H|size H Hgt|size H Hle -> Hr|size H Hle Hr].
  - by rewrite exec_stat_failed.
  - by erewrite exec_oversize.
  - by erewrite exec_read_failed.
  - destruct rc.
    + destruct Hr as [content Hr]; [done|]. by erewrite exec_read.
    + by erewrite exec_list_mode.
Qed.

Lemma record_or_warning fs path rel rc :
  length (appended (exec fs (processFile path rel rc)))
  + length (logged (exec fs (processFile path rel rc))) = 1.
Proof.
  destruct (outcome_cases fs path rc) as [H|size H Hgt|size H Hle -> Hr|size H Hle Hr].
  - by rewrite exec_stat_failed.
  - by erewrite exec_oversize.
  - by erewrite exec_read_failed.
  - destruct rc.
    + destruct Hr as [content Hr]; [done|]. by erewrite exec_read.
    + by erewrite exec_list_mode.
Qed.

Lemma psize_processFile fs path rel rc :
  (psize fs (processFile path rel rc) ≤ 5)%nat.
Proof.
  unfold processFile. cbn [psize]. destruct (stat fs path) as [size|]; [|cbn; lia].
  destruct (size >? maxFileSize)%Z; [cbn; lia|].
  destruct rc; cbn [psize]; [|lia].
  destruct (readFile fs path); cbn [psize]; lia.
Qed.

Section Invariants.
Variable fs : fsys.
Variable readContent : bool.

(** A property kept by every step holds along every run. *)
Lemma run_keeps (P : state → Prop) :
  (∀ a s s', fire fs readContent a s = Some s' → P s → P s') →
  ∀ sched s s', run fs readContent sched s = Some s' → P s → P s'.
Proof.
  intros Hstep sched. induction sched as [|a sched IH]; cbn; intros s s' Hrun HP.
  - by simplify_eq.
  - destruct (fire fs readContent a s) as [s1|] eqn:Hfire; [|done]. eauto.
Qed.

Lemma finished_logs jobs failed sched s :
  run fs readContent sched (init jobs failed) = Some s →
  coord s = CFinished →
  logs s ≡ₚ flat_map (λ j, logged (exec fs (processFile j.1 j.2 readContent))) jobs.
Proof.
  intros Hrun Hfin.
  pose proof (run_ahead fs readContent logs _ (logs_ahead fs readContent)
                _ _ _ Hrun) as Hperm.
  pose proof (run_consistent fs readContent failed _ _ _ Hrun
                (init_consistent _ _)) as Hc.
  rewrite (flat_map_allRet _ (ahead readContent s)) in Hperm;
    [|done|by eapply ahead_finished].
  rewrite app_nil_r in Hperm. rewrite Hperm. cbn. unfold ahead. cbn.
  by rewrite flat_map_concat_map, map_map, <- flat_map_concat_map.
Qed.

Lemma length_flat_map {A B} (f : A → list B) l :
  length (flat_map f l) = sum_list_with (λ x, length (f x)) l.
Proof.
  induction l as [|x l IH]; [done|]. cbn. by rewrite length_app, IH.
Qed.

(** *** The count of the reporter *)

Lemma count_ahead a s s' :
  fire fs readContent a s = Some s' →
  count s' + sum_list_with (λ p, length (sent (exec fs p))) (ahead readContent s')
  = count s + sum_list_with (λ p, length (sent (exec fs p))) (ahead readContent s).
Proof.
  intros Hfire. destruct s as [c ws fl lg io cl r n err].
  unfold ahead, pendingJobs. cbn in *.
  stepCases Hfire; cbn [coord rep workers count setCoord setRep setWorkers
                         length map fst snd];
    rewrite ?sum_list_with_app; cbn [sum_list_with]; try lia;
    match goal with
    | H : ws !! ?i = Some ?p |- context [<[?i:=?p']> ws] =>
      pose proof (sum_insert (λ q, length (sent (exec fs q))) ws i p p' H)
        as Hsum; cbn in Hsum
    end; lia.
Qed.

Lemma sent_of_jobs jobs :
  sum_list_with (λ p, length (sent (exec fs p)))
    (map (λ j, processFile j.1 j.2 readContent) jobs)
  = length (records fs readContent jobs).
Proof.
  unfold records. rewrite length_flat_map.
  induction jobs as [|j jobs IH]; [done|]. cbn [map sum_list_with].
  by rewrite sent_appended, length_map, IH.
Qed.

Lemma finished_count jobs failed sched s :
  run fs readContent sched (init jobs failed) = Some s →
  coord s = CFinished →
  count s = length (files s).
Proof.
  intros Hrun Hfin.
  pose proof (finished_files fs readContent _ _ _ _ Hrun Hfin) as Hfiles.
  pose proof (run_consistent fs readContent failed _ _ _ Hrun
                (init_consistent _ _)) as Hc.
  assert (count s
          + sum_list_with (λ p, length (sent (exec fs p))) (ahead readContent s)
          = sum_list_with (λ p, length (sent (exec fs p)))
              (ahead readContent (init jobs failed))) as Hcount.
  { apply (run_keeps (λ s, count s + sum_list_with _ (ahead readContent s)
                           = sum_list_with _ (ahead readContent (init jobs failed)))
             ) with (sched := sched) (s := init jobs failed); [|done|done].
    intros a s1 s2 Hfire <-. exact (count_ahead _ _ _ Hfire). }
  assert (sum_list_with (λ p, length (sent (exec fs p))) (ahead readContent s) = 0)
    as Hzero.
  { pose proof (ahead_finished readContent failed s Hc Hfin) as Hall.
    induction (ahead readContent s) as [|w ws IH]; [done|].
    cbn in Hall. apply andb_prop in Hall as [Hw Hws]. destruct w; try done.
    cbn. by apply IH. }
  rewrite Hzero, Nat.add_0_r in Hcount. rewrite Hcount, Hfiles.
  unfold ahead. cbn [init workers coord pendingJobs app]. apply sent_of_jobs.
Qed.

(** *** What the reporter has written *)

Lemma div_succ_hit n : S n mod 100 = 0 → S n / 100 = S (n / 100).
Proof.
  intros Hmod. pose proof (Nat.div_mod_eq (S n) 100) as H1.
  pose proof (Nat.div_mod_eq n 100) as H2.
  pose proof (Nat.mod_upper_bound n 100) as H3. lia.
Qed.

Lemma div_succ_miss n : S n mod 100 ≠ 0 → S n / 100 = n / 100.
Proof.
  intros Hmod. pose proof (Nat.div_mod_eq (S n) 100) as H1.
  pose proof (Nat.div_mod_eq n 100) as H2.
  pose proof (Nat.mod_upper_bound n 100) as H3.
  pose proof (Nat.mod_upper_bound (S n) 100) as H4. lia.
Qed.

Lemma progressLines_S k :
  progressLines (S k) = progressLines k ++ [Progress (100 * S k)].
Proof. unfold progressLines. by rewrite seq_S, map_app. Qed.

Lemma fire_reported a s s' :
  fire fs readContent a s = Some s' → reported s → reported s'.
Proof.
  intros Hfire [Herr Hprint]. destruct s as [c ws fl lg io cl r n err].
  unfold reported in *. cbn [stderr rep count] in *.
  stepCases Hfire; cbn [stderr rep count setCoord setRep setWorkers written];
    try (split; [done|done]); try (split; [done|by intros [=]]).
  - (* the hundredth file: the receive goes to the print *)
    match goal with H : (_ =? 0)%nat = true |- _ => apply Nat.eqb_eq in H end.
    split; [|intros _; split; [done|lia]].
    rewrite div_succ_hit by done. cbn [written]. f_equal. lia.
  - match goal with H : (_ =? 0)%nat = false |- _ => apply Nat.eqb_neq in H end.
    split; [|by intros [=]]. cbn [written]. by rewrite div_succ_miss.
  - (* the print *)
    destruct (Hprint eq_refl) as [Hmod Hpos]. split; [|by intros [=]].
    pose proof (Nat.div_mod_eq n 100) as Hdiv.
    destruct (n / 100) as [|k] eqn:Hk; [lia|].
    rewrite progressLines_S. cbn [written]. do 3 f_equal; lia.
Qed.

Lemma run_reported jobs failed sched s :
  run fs readContent sched (init jobs failed) = Some s → reported s.
Proof.
  intros Hrun. eapply (run_keeps reported); [apply fire_reported|done|].
  split; [done|]. by intros [=].
Qed.

(** *** After the abort *)

Lemma fire_abortedOpen failed a s s' :
  fire fs readContent a s = Some s' →
  consistent failed s = true → abortedOpen s'.
Proof.
  intros Hfire Hc.
  assert (running s = true) as Hrun.
  { unfold fire in Hfire. by destruct (running s). }
  destruct s as [c ws fl lg io cl r n err].
  unfold abortedOpen, consistent, running in *.
  cbn [coord closed rep workers] in *.
  destruct c; try done;
    stepCases Hfire; cbn [coord closed rep setCoord setRep setWorkers];
    try (by intros [=]); intros _; bools; by subst.
Qed.

Lemma run_abortedOpen jobs failed sched s :
  run fs readContent sched (init jobs failed) = Some s → abortedOpen s.
Proof.
  intros Hrun.
  enough (consistent failed s = true ∧ abortedOpen s) as [_ H] by done.
  eapply (run_keeps (λ s, consistent failed s = true ∧ abortedOpen s));
    [|done|].
  - intros a s1 s2 Hfire [Hc _]. split; [by eapply fire_consistent|].
    by eapply fire_abortedOpen.
  - split; [apply init_consistent|]. by intros [=].
Qed.

(** The steps of a run on [n] files. *)
Lemma measure_init jobs failed :
  (measure fs readContent (init jobs failed) ≤ 9 + 6 * length jobs)%nat.
Proof.
  unfold measure, ahead. cbn [init coord rep workers pendingJobs app coordRank
                               repRank].
  assert (sum_list_with (psize fs)
            (map (λ j, processFile j.1 j.2 readContent) jobs)
          ≤ 5 * length jobs)%nat; [|lia].
  induction jobs as [|j jobs IH]; [done|]. cbn [map sum_list_with length].
  pose proof (psize_processFile fs j.1 j.2 readContent). lia.
Qed.

End Invariants.
End ConcMore.

Import ConcMore.

(** X5: [showProgress] writes one progress line after every 100th
    notification and nothing else before the channel is closed; in a run
    that has handed its files to the output it has counted exactly the
    records among the files, and the lines on the standard error are the
    progress lines for the full hundreds followed by one summary with that
    count. *)
Theorem X5_progress_report fs rc jobs failed sched s :
  run fs rc sched (init jobs failed) = Some s →
  stderr s = written (rep s) (count s)
  ∧ (coord s = CFinished →
     count s = length (files s)
     ∧ stderr s = progressLines (length (files s) / 100)
                  ++ [Summary (length (files s))]).
Proof.
  intros Hrun. destruct (run_reported fs rc _ _ _ _ Hrun) as [Herr _].
  split; [done|]. intros Hfin.
  pose proof (finished_count fs rc _ _ _ _ Hrun Hfin) as Hcount.
  split; [done|]. rewrite Herr, Hcount.
  pose proof (run_consistent fs rc failed _ _ _ Hrun (init_consistent _ _)) as Hc.
  unfold consistent in Hc. rewrite Hfin in Hc. bools.
  match goal with H : rep s = RExit |- _ => by rewrite H end.
Qed.

Lemma X5_progress_report_witness :
  ∃ s, run Sample.fs true Sample.firstThenSecond
           (init [("/proj/a.txt", "a.txt"); ("/proj/bin.dat", "bin.dat")] false)
       = Some s
       ∧ stderr s = written (rep s) (count s)
       ∧ count s = 2.
Proof.
  destruct (run Sample.fs true Sample.firstThenSecond
              (init [("/proj/a.txt", "a.txt"); ("/proj/bin.dat", "bin.dat")]
                 false)) as [s|] eqn:Hrun; [|vm_compute in Hrun; discriminate].
  exists s. split; [reflexivity|].
  split; [exact (proj1 (X5_progress_report _ _ _ _ _ _ Hrun))|].
  vm_compute in Hrun. by injection Hrun as <-.
Defined.

(** X6: the goroutines of [listFiles] cannot get stuck and cannot go on for
    ever: a run on [n] eligible files makes at most [9 + 6 n] steps under
    any schedule, and as long as [listFiles] has not returned some step is
    possible. *)
Theorem X6_run_bounded_and_live fs rc jobs failed sched s :
  run fs rc sched (init jobs failed) = Some s →
  (length sched ≤ 9 + 6 * length jobs)%nat
  ∧ (running s = true → ∃ a s', fire fs rc a s = Some s').
Proof.
  intros Hrun. split.
  - pose proof (run_measure fs rc _ _ _ Hrun).
    pose proof (measure_init fs rc jobs failed). lia.
  - intros Hrunning. eapply fire_enabled; [|done].
    by eapply run_consistent; [|apply init_consistent].
Qed.

Lemma X6_run_bounded_and_live_witness :
  (length Sample.firstThenSecond ≤ 9 + 6 * 2)%nat.
Proof.
  destruct (run Sample.fs true Sample.firstThenSecond
              (init [("/proj/a.txt", "a.txt"); ("/proj/bin.dat", "bin.dat")]
                 false)) as [s|] eqn:Hrun; [|vm_compute in Hrun; discriminate].
  exact (proj1 (X6_run_bounded_and_live _ _ _ _ _ _ Hrun)).
Defined.

(** X7: when the walk reports an error, [listFiles] returns the walk error
    and writes no output, whatever the goroutines started before the error
    have done; and it does return. *)
Theorem X7_walk_error_aborts customExcludePatterns matcher fs tree baseDir format :
  is_Some (Walk customExcludePatterns matcher baseDir tree).2 →
  listFiles customExcludePatterns (GitMatcher matcher) fs tree baseDir format
    (inl ErrWalk)
  ∧ ∀ res,
      listFiles customExcludePatterns (GitMatcher matcher) fs tree baseDir
        format res →
      res = inl ErrWalk.
Proof.
  intros Herr. unfold listFiles.
  destruct (Walk customExcludePatterns matcher baseDir tree) as [trace err].
  cbn [snd] in Herr. rewrite (bool_decide_eq_true_2 _ Herr).
  set (rc := negb (String.eqb format "list")).
  assert (∀ sched s, run fs rc sched (init (dispatched trace) true) = Some s →
            coord s ≠ CFinished) as Hnot.
  { intros sched s Hrun Hfin.
    pose proof (run_consistent fs rc true _ _ _ Hrun (init_consistent _ _)) as Hc.
    unfold consistent in Hc. by rewrite Hfin in Hc. }
  split.
  - destruct (run_ends fs rc true (init (dispatched trace) true)
                (init_consistent _ _)) as (sched & s & Hrun & Hend).
    exists sched, s. split; [done|]. specialize (Hnot _ _ Hrun).
    unfold running in Hend. by destruct (coord s).
  - intros res (sched & s & Hrun & Hres). specialize (Hnot _ _ Hrun).
    by destruct (coord s).
Qed.

Lemma X7_walk_error_aborts_witness :
  is_Some (Walk [] Sample.noMatch "/proj" unreadable).2
  ∧ listFiles [] (GitMatcher Sample.noMatch) Sample.fs unreadable "/proj" "json"
      (inl ErrWalk).
Proof.
  assert (is_Some (Walk [] Sample.noMatch "/proj" unreadable).2) as Herr.
  { vm_compute. by eexists. }
  split; [exact Herr|].
  exact (proj1 (X7_walk_error_aborts [] Sample.noMatch Sample.fs unreadable
                  "/proj" "json" Herr)).
Defined.

(** X8: every file a goroutine was started for ends as exactly one record or
    as exactly one warning. In a run that has handed its files to the output
    the records and the log lines together are as many as the goroutines
    started, and the log lines are those of the skipped files, in some
    order. *)
Theorem X8_record_or_warning fs rc jobs failed sched s :
  run fs rc sched (init jobs failed) = Some s →
  coord s = CFinished →
  length (files s) + length (logs s) = length jobs
  ∧ logs s ≡ₚ flat_map (λ j, logged (exec fs (processFile j.1 j.2 rc))) jobs.
Proof.
  intros Hrun Hfin.
  pose proof (finished_files fs rc _ _ _ _ Hrun Hfin) as Hfiles.
  pose proof (finished_logs fs rc _ _ _ _ Hrun Hfin) as Hlogs.
  split; [|done]. rewrite Hfiles, Hlogs. unfold records.
  rewrite !length_flat_map. clear.
  induction jobs as [|j jobs IH]; [done|]. cbn [sum_list_with length].
  pose proof (record_or_warning fs j.1 j.2 rc). lia.
Qed.

Lemma X8_record_or_warning_witness :
  ∃ s, run Sample.fs true oneRecordOneWarning
           (init [("/proj/a.txt", "a.txt"); ("/proj/gone.txt", "gone.txt")] false)
       = Some s
       ∧ length (files s) + length (logs s) = 2.
Proof.
  destruct (run Sample.fs true oneRecordOneWarning
              (init [("/proj/a.txt", "a.txt"); ("/proj/gone.txt", "gone.txt")]
                 false)) as [s|] eqn:Hrun; [|vm_compute in Hrun; discriminate].
  assert (coord s = CFinished) as Hfin.
  { vm_compute in Hrun. by injection Hrun as <-. }
  exists s. split; [reflexivity|].
  exact (proj1 (X8_record_or_warning _ _ _ _ _ _ Hrun Hfin)).
Defined.

(** X9: the channel protocol is safe in every state of every run. Once the
    progress channel is closed no goroutine is left that could still send on
    it and none is still to be started; the reporter leaves its loop only
    after the close and ends only when [listFiles] has received its signal;
    and the files are handed to the output only after every goroutine has
    ended and the reporter has written its summary. *)
Theorem X9_channel_protocol fs rc jobs failed sched s :
  run fs rc sched (init jobs failed) = Some s →
  (closed s = true →
   (∀ i p, workers s !! i = Some p → p = Ret) ∧ pendingJobs s = []
   ∧ (coord s = CRecvDone ∨ coord s = CFinished))
  ∧ (inLoop (rep s) = false → closed s = true)
  ∧ (rep s = RExit → coord s = CFinished)
  ∧ (coord s = CFinished →
     rep s = RExit ∧ closed s = true
     ∧ ∀ i p, workers s !! i = Some p → p = Ret).
Proof.
  intros Hrun.
  pose proof (run_consistent fs rc failed _ _ _ Hrun (init_consistent _ _)) as Hc.
  pose proof (run_abortedOpen fs rc _ _ _ _ Hrun) as Ha.
  unfold consistent, abortedOpen, pendingJobs in *.
  destruct (coord s) eqn:Hcoord; bools;
    try (destruct Ha as [Hcl Hin]; [done|]);
    (split_and!;
     [ intros Hclosed; try congruence; split_and!; eauto using allRet_lookup
     | intros Hout; try congruence
     | intros Hexit; try done; try (rewrite Hexit in *; done)
     | intros Hfin; try done; split_and!; eauto using allRet_lookup ]).
Qed.

Lemma X9_channel_protocol_witness :
  ∃ s, run Sample.fs true Sample.firstThenSecond
           (init [("/proj/a.txt", "a.txt"); ("/proj/bin.dat", "bin.dat")] false)
       = Some s
       ∧ (closed s = true → ∀ i p, workers s !! i = Some p → p = Ret).
Proof.
  destruct (run Sample.fs true Sample.firstThenSecond
              (init [("/proj/a.txt", "a.txt"); ("/proj/bin.dat", "bin.dat")]
                 false)) as [s|] eqn:Hrun; [|vm_compute in Hrun; discriminate].
  exists s. split; [reflexivity|].
  intros Hclosed.
  exact (proj1 (proj1 (X9_channel_protocol _ _ _ _ _ _ Hrun) Hclosed)).
Defined.

(** ** More on the walk *)

Module TreeMore.
Import Strs Exclude Proc Tree Conc Notions ProcFacts ConcFacts TreeFacts RunFacts
  ConcMore.

Section Walk.
Variable customExcludePatterns : list Glob.
Variable matcher : Matcher.

Local Abbreviation walk := (walk customExcludePatterns matcher).
Local Abbreviation excluded name rel :=
  (shouldExclude customExcludePatterns name rel matcher).



(** A goroutine is started only for a file of the tree that is not excluded
    and has no excluded directory above it. *)
Lemma walk_dispatch_sound n :
  ∀ path rel p r,
  Dispatch p r ∈ (walk path rel n).1 →
  ∃ chain fname,
    occurs rel n chain fname r
    ∧ pruned customExcludePatterns matcher chain = false
    ∧ excluded fname r = false.
Proof.
  induction n as [name|name|name readable es IH] using node_ind';
    intros path rel p r.
  - rewrite walk_File. destruct (excluded name rel) eqn:Hex; cbn [fst];
      intros He%list_elem_of_singleton; simplify_eq.
    exists [], name. split_and!; [constructor|done|done].
  - cbn. by intros ?%elem_of_nil.
  - rewrite walk_Dir. rewrite Forall_forall in IH.
    destruct readable; cbn [negb fst]; [|by intros ?%elem_of_nil].
    destruct (excluded name rel) eqn:Hex; cbn [fst].
    { intros He%list_elem_of_singleton. discriminate. }
    intros (c & Hc & He)%walkEntries_elem.
    destruct (IH c Hc _ _ _ _ He) as (chain & fname & Hocc & Hpr & Hf).
    exists ((name, rel) :: chain), fname. split_and!; [|cbn; by rewrite Hex|done].
    by eapply occurs_below.
Qed.

(** Likewise a file is dropped only when it is excluded and reached. *)
Lemma walk_exclude_sound n :
  ∀ path rel r,
  ExcludeFile r ∈ (walk path rel n).1 →
  ∃ chain fname,
    occurs rel n chain fname r
    ∧ pruned customExcludePatterns matcher chain = false
    ∧ excluded fname r = true.
Proof.
  induction n as [name|name|name readable es IH] using node_ind';
    intros path rel r.
  - rewrite walk_File. destruct (excluded name rel) eqn:Hex; cbn [fst];
      intros He%list_elem_of_singleton; simplify_eq.
    exists [], name. split_and!; [constructor|done|done].
  - cbn. by intros ?%elem_of_nil.
  - rewrite walk_Dir. rewrite Forall_forall in IH.
    destruct readable; cbn [negb fst]; [|by intros ?%elem_of_nil].
    destruct (excluded name rel) eqn:Hex; cbn [fst].
    { intros He%list_elem_of_singleton. discriminate. }
    intros (c & Hc & He)%walkEntries_elem.
    destruct (IH c Hc _ _ _ He) as (chain & fname & Hocc & Hpr & Hf).
    exists ((name, rel) :: chain), fname. split_and!; [|cbn; by rewrite Hex|done].
    by eapply occurs_below.
Qed.

(** *** No relative path twice *)

Lemma count_cons P e trace :
  Tree.count P (e :: trace) = (if P e then 1 else 0) + Tree.count P trace.
Proof.
  change (e :: trace) with ([e] ++ trace).
  by rewrite count_app, count_singleton.
Qed.

Lemma dispatched_NoDup trace :
  (∀ r, Tree.count (isDispatchOf r) trace ≤ 1)%nat →
  NoDup (map snd (dispatched trace)).
Proof.
  induction trace as [|e trace IH]; intros Hcount; [constructor|].
  assert (∀ r, Tree.count (isDispatchOf r) trace ≤ 1)%nat as Hrest.
  { intros r. specialize (Hcount r). rewrite count_cons in Hcount. lia. }
  destruct e as [p r| |]; cbn [dispatched omap map]; [|by apply IH..].
  change (NoDup (r :: map snd (dispatched trace))).
  apply NoDup_cons. split; [|by apply IH].
  intros Hin. apply list_elem_of_In, in_map_iff in Hin as ([p' r'] & Heq & Hin).
  cbn in Heq. subst r'. apply list_elem_of_In, dispatched_elem in Hin.
  specialize (Hcount r). rewrite count_cons in Hcount. cbn in Hcount.
  rewrite String.eqb_refl in Hcount.
  pose proof (count_some (isDispatchOf r) trace _ Hin) as Hpos.
  cbn in Hpos. rewrite String.eqb_refl in Hpos. specialize (Hpos eq_refl). lia.
Qed.

Lemma walk_dispatch_once n path rel r :
  wellFormed n = true →
  (Tree.count (isDispatchOf r) (walk path rel n).1 ≤ 1)%nat.
Proof.
  intros Hwf.
  destruct (decide (0 < Tree.count (isDispatchOf r) (walk path rel n).1)%nat)
    as [Hpos|]; [|lia].
  assert (∃ p, Dispatch p r ∈ (walk path rel n).1) as [p Hp].
  { unfold Tree.count in Hpos.
    destruct (filter _ (walk path rel n).1) as [|e l] eqn:Hf; [cbn in Hpos; lia|].
    assert (e ∈ filter (λ e, isDispatchOf r e = true) (walk path rel n).1) as He
      by (rewrite Hf; by left).
    apply list_elem_of_filter in He as [HP He]. destruct e as [p r'| |]; try done.
    cbn in HP. apply String.eqb_eq in HP as ->. by exists p. }
  destruct (walk_dispatch_sound _ _ _ _ _ Hp) as (chain & fname & Hocc & Hpr & Hex).
  destruct (walk_count customExcludePatterns matcher (isDispatchOf r) 1 rel n
              chain fname r Hocc Hwf) with (path := path) as [Hle _].
  - intros [] H; try done. by apply String.eqb_eq in H.
  - done.
  - intros path'. unfold walkFn. rewrite Hex. cbn [negb fst].
    rewrite count_singleton. cbn. by rewrite String.eqb_refl.
  - by rewrite Hpr in Hle.
Qed.

End Walk.

Lemma records_paths_NoDup fs rc jobs :
  NoDup (map snd jobs) → NoDup (map Path (records fs rc jobs)).
Proof.
  induction jobs as [|[path rel] jobs IH]; [constructor|].
  cbn [map snd]. intros [Hrel Hnd]%NoDup_cons.
  unfold records. cbn [flat_map fst snd]. fold (records fs rc jobs).
  rewrite map_app, <- sent_appended.
  assert (sent (exec fs (processFile path rel rc)) = [rel]
          ∨ sent (exec fs (processFile path rel rc)) = []) as [->| ->].
  { destruct (outcome_cases fs path rc)
      as [H|size H Hgt|size H Hle -> Hr|size H Hle Hr].
    - right. by rewrite exec_stat_failed.
    - right. by erewrite exec_oversize.
    - right. by erewrite exec_read_failed.
    - left. destruct rc.
      + destruct Hr as [content Hr]; [done|]. by erewrite exec_read.
      + by erewrite exec_list_mode. }
  - cbn [app]. apply NoDup_cons. split; [|by apply IH].
    intros Hin. apply Hrel.
    apply list_elem_of_In, in_map_iff in Hin as (fc & <- & Hin).
    apply list_elem_of_In, records_elem in Hin as (j & Hj & Hfc).
    apply appended_path in Hfc as ->.
    apply list_elem_of_In, in_map. by apply list_elem_of_In.
  - by apply IH.
Qed.

End TreeMore.

Import TreeMore.



(** X11: whatever the walk does with a path it does to a file of the tree
    that it reached: a goroutine is started only for a file that is not
    excluded and lies below no excluded directory, and a file is dropped
    only when it is excluded and lies below no excluded directory. This
    holds for the events of walks that end with an error too. *)
Theorem X11_events_are_files customExcludePatterns matcher root tree :
  (∀ p r,
     Dispatch p r ∈ (Walk customExcludePatterns matcher root tree).1 →
     ∃ chain fname,
       occurs "." tree chain fname r
       ∧ pruned customExcludePatterns matcher chain = false
       ∧ shouldExclude customExcludePatterns fname r matcher = false)
  ∧ (∀ r,
       ExcludeFile r ∈ (Walk customExcludePatterns matcher root tree).1 →
       ∃ chain fname,
         occurs "." tree chain fname r
         ∧ pruned customExcludePatterns matcher chain = false
         ∧ shouldExclude customExcludePatterns fname r matcher = true).
Proof.
  unfold Walk.
  destruct (Tree.walk customExcludePatterns matcher root "." tree)
    as [trace err] eqn:Hw. cbn [fst]. split.
  - intros p r Hd. eapply walk_dispatch_sound. by rewrite Hw.
  - intros r Hd. eapply walk_exclude_sound. by rewrite Hw.
Qed.



(** X13: in every state of every run on a tree with proper entry names, no
    two records among the files have the same path. *)
Theorem X13_record_paths_distinct customExcludePatterns matcher fs rc root tree
    failed sched s :
  wellFormed tree = true →
  run fs rc sched
      (init (dispatched (Walk customExcludePatterns matcher root tree).1) failed)
  = Some s →
  NoDup (map Path (files s)).
Proof.
  intros Hwf Hrun.
  set (jobs := dispatched (Walk customExcludePatterns matcher root tree).1) in *.
  assert (NoDup (map snd jobs)) as Hjobs.
  { subst jobs. apply dispatched_NoDup. intros r. unfold Walk.
    pose proof (walk_dispatch_once customExcludePatterns matcher tree root "." r
                  Hwf) as Hle.
    by destruct (Tree.walk customExcludePatterns matcher root "." tree). }
  pose proof (run_ahead fs rc files _ (files_ahead fs rc) _ _ _ Hrun) as Hperm.
  assert (files (init jobs failed)
          ++ flat_map (λ p, appended (exec fs p)) (ahead rc (init jobs failed))
          = records fs rc jobs) as Hinit.
  { unfold ahead, records. cbn [init files workers coord pendingJobs app].
    by rewrite flat_map_concat_map, map_map, <- flat_map_concat_map. }
  rewrite Hinit in Hperm.
  apply (records_paths_NoDup fs rc) in Hjobs.
  assert (map Path (files s ++ flat_map (λ p, appended (exec fs p)) (ahead rc s))
          ≡ₚ map Path (records fs rc jobs)) as Hmap by by rewrite Hperm.
  rewrite <- Hmap, map_app in Hjobs. by apply NoDup_app in Hjobs as [? _].
Qed.

Lemma X13_record_paths_distinct_witness :
  ∃ s, run Sample.fs true Sample.firstThenSecond
           (init (dispatched (Walk [] Sample.noMatch "/proj" Sample.twoFiles).1)
              false) = Some s
       ∧ NoDup (map Path (files s)).
Proof.
  destruct (run Sample.fs true Sample.firstThenSecond
              (init (dispatched (Walk [] Sample.noMatch "/proj" Sample.twoFiles).1)
                 false)) as [s|] eqn:Hrun; [|vm_compute in Hrun; discriminate].
  exists s. split; [reflexivity|].
  exact (X13_record_paths_distinct [] Sample.noMatch Sample.fs true "/proj"
           Sample.twoFiles false _ s eq_refl Hrun).
Defined.

(** ** More on the command line *)

Module CliFacts.
Import Strs Exclude Cli Notions.

Lemma compileAll_ok compile acc patterns globs :
  Forall2 (λ p g, compile p = Some g) patterns globs →
  compileAll compile acc patterns = inr (acc ++ globs).
Proof.
  intros H. revert acc. induction H as [|p g ps gs Hp _ IH]; intros acc; cbn.
  - by rewrite app_nil_r.
  - rewrite Hp, IH. by rewrite <- (assoc (++)).
Qed.

Lemma compileAll_inr compile acc patterns out :
  compileAll compile acc patterns = inr out →
  ∃ globs, out = acc ++ globs ∧ Forall2 (λ p g, compile p = Some g) patterns globs.
Proof.
  revert acc. induction patterns as [|p ps IH]; intros acc; cbn.
  - intros [= <-]. exists []. by rewrite app_nil_r.
  - destruct (compile p) as [g|] eqn:Hp; [|done].
    intros (gs & -> & Hgs)%IH. exists (g :: gs).
    split; [by rewrite <- (assoc (++))|by constructor].
Qed.

Lemma compileAll_inl compile acc patterns e :
  compileAll compile acc patterns = inl e ↔
  ∃ good bad rest,
    patterns = good ++ bad :: rest
    ∧ Forall (λ p, is_Some (compile p)) good
    ∧ compile bad = None
    ∧ e = ErrInvalidPattern bad.
Proof.
  revert acc. induction patterns as [|p ps IH]; intros acc; cbn.
  - split; [done|]. intros (good & bad & rest & Heq & _). by destruct good.
  - destruct (compile p) as [g|] eqn:Hp.
    + rewrite IH. split.
      * intros (good & bad & rest & -> & Hgood & Hbad & ->).
        exists (p :: good), bad, rest. split_and!; try done.
        constructor; [by rewrite Hp|done].
      * intros (good & bad & rest & Heq & Hgood & Hbad & ->).
        destruct good as [|p' good]; cbn in Heq; simplify_eq.
        apply Forall_cons in Hgood as [_ Hgood]. by exists good, bad, rest.
    + split.
      * intros [= <-]. exists [], p, ps. split_and!; try done.
      * intros (good & bad & rest & Heq & Hgood & Hbad & ->).
        destruct good as [|p' good]; cbn in Heq; simplify_eq; [done|].
        apply Forall_cons in Hgood as [[g Hg] _]. congruence.
Qed.

End CliFacts.

Import CliFacts.

(** X14: for an existing directory and an accepted format, the custom
    patterns decide the start: [listFiles] is called exactly when every
    pattern compiles, with the compiled patterns in the order given and with
    the format [list] under the list flag; otherwise the process ends with
    status 1 on the first pattern that does not compile, the patterns before
    it having compiled. *)
Theorem X14_patterns_compiled_in_order compile directory format listOnly
    excludePatterns :
  listOnly = true ∨ format = "text" ∨ format = "json" →
  (∀ globs,
     main false compile directory format listOnly excludePatterns
     = CallListFiles directory (if listOnly then "list" else format) globs
     ↔ Forall2 (λ p g, compile p = Some g) excludePatterns globs)
  ∧ (∀ status e,
       main false compile directory format listOnly excludePatterns
       = Fatal status e
       ↔ status = 1%Z
         ∧ ∃ good bad rest,
             excludePatterns = good ++ bad :: rest
             ∧ Forall (λ p, is_Some (compile p)) good
             ∧ compile bad = None
             ∧ e = ErrInvalidPattern bad).
Proof.
  intros Hformat. unfold main, Action.
  assert (negb listOnly && negb (String.eqb format "text")
          && negb (String.eqb format "json") = false) as ->.
  { destruct Hformat as [->|[->| ->]]; [done| |].
    - by rewrite andb_false_r.
    - by rewrite andb_false_r. }
  destruct (compileAll compile [] excludePatterns) as [e'|out] eqn:Hc; split.
  - intros globs. split; [done|]. intros H%(compileAll_ok compile []).
    rewrite Hc in H. discriminate.
  - intros status e. rewrite <- (compileAll_inl compile []), Hc. split.
    + by intros [= <- <-].
    + by intros [-> [= ->]].
  - intros globs. apply compileAll_inr in Hc as (gs & -> & Hgs). cbn [app].
    split.
    + by intros [= <-].
    + intros H%(compileAll_ok compile []).
      pose proof (compileAll_ok compile [] _ _ Hgs) as H'.
      rewrite H in H'. by simplify_eq.
  - intros status e. split; [done|].
    intros [_ H%(compileAll_inl compile [])]. rewrite Hc in H. discriminate.
Qed.

Lemma X14_patterns_compiled_in_order_witness :
  main false suffixGlob "proj" "json" false [".md"; "["; ".css"]
  = Fatal 1 (ErrInvalidPattern "[").
Proof.
  refine (proj2 (proj2 (X14_patterns_compiled_in_order suffixGlob "proj" "json"
                          false [".md"; "["; ".css"] _) 1%Z
                   (ErrInvalidPattern "[")) _).
  - right. by right.
  - split; [done|]. exists [".md"], "[", [".css"]. split_and!; try done.
    constructor; [by eexists|constructor].
Defined.

(** ** When the walk fails *)

Module TreeFails.
Import Strs Exclude Tree Notions TreeFacts.

Section Walk.
Variable customExcludePatterns : list Glob.
Variable matcher : Matcher.

Local Abbreviation walk := (walk customExcludePatterns matcher).
Local Abbreviation excluded name rel :=
  (shouldExclude customExcludePatterns name rel matcher).
Local Abbreviation failsAt := (failsAt customExcludePatterns matcher).

(** The loop over the entries fails exactly when the walk of an entry does. *)
Lemma walkEntries_fails w es :
  (∀ c, c ∈ es → (w c).2 = Some SkipDir → skipped c SkipDir = true) →
  isFail (walkEntries w es).2 ↔ ∃ c, c ∈ es ∧ isFail (w c).2.
Proof.
  induction es as [|c es IH]; intros Hskip; cbn [walkEntries].
  - split; [by intros [? ?]|]. by intros (c & ?%elem_of_nil & _).
  - assert (c ∈ c :: es) as Hhd by by left.
    specialize (Hskip c Hhd) as Hc.
    destruct IH as [IH1 IH2]; [intros c' Hc'; apply Hskip; by right|].
    destruct (w c) as [ev1 r1] eqn:Hw. cbn [snd] in Hc.
    destruct (walkEntries w es) as [ev2 r2]. cbn [snd] in *.
    assert (¬ isFail r1 →
            (isFail r2 ↔ ∃ c', c' ∈ c :: es ∧ isFail (w c').2)) as Hgo.
    { intros Hnf. split.
      - intros (c' & Hc' & Hf)%IH1. exists c'. split; [by right|done].
      - intros (c' & [->|Hc']%elem_of_cons & Hf).
        + rewrite Hw in Hf. by destruct Hnf.
        + apply IH2. by exists c'. }
    destruct r1 as [[|path]|]; cbn [snd].
    + rewrite Hc by done. cbn [snd]. apply Hgo. by intros [? ?].
    + assert (skipped c (WalkFail path) = false) as -> by by destruct c.
      cbn [snd]. split; [|by eexists]. intros _. exists c.
      split; [done|]. rewrite Hw. by eexists.
    + apply Hgo. by intros [? ?].
Qed.

Lemma walk_fails n :
  ∀ path rel, isFail (walk path rel n).2 ↔ failsAt rel n.
Proof.
  induction n as [name|name|name readable es IH] using node_ind';
    intros path rel.
  - rewrite walk_File. split.
    + destruct (excluded name rel); by intros [? ?].
    + inversion 1.
  - cbn. split; [constructor|]. by eexists.
  - rewrite walk_Dir. rewrite Forall_forall in IH.
    destruct readable; cbn [negb snd].
    2:{ split; [constructor|]. by eexists. }
    destruct (excluded name rel) eqn:Hex; cbn [snd].
    { split; [by intros [? ?]|]. inversion 1. congruence. }
    rewrite walkEntries_fails by (intros c _; apply walk_SkipDir). split.
    + intros (c & Hc & Hf). eapply fails_below; [done..|]. by eapply IH.
    + inversion 1 as [| |? ? ? c Hex' Hc Hf]; subst.
      exists c. split; [done|]. by apply IH.
Qed.

End Walk.
End TreeFails.

Import TreeFails.

(** X15: the walk reports an error exactly when it reaches an entry whose
    [Lstat] fails or a directory that cannot be listed, with every directory
    above it listed and not excluded. A directory that cannot be listed
    fails the walk even when its own name is excluded, as its names are read
    before the callback sees it; what lies below an excluded directory never
    does. *)
Theorem X15_walk_fails_iff customExcludePatterns matcher root tree :
  is_Some (Walk customExcludePatterns matcher root tree).2
  ↔ failsAt customExcludePatterns matcher "." tree.
Proof.
  rewrite <- (walk_fails customExcludePatterns matcher tree root ".").
  unfold Walk, isFail.
  destruct (Tree.walk customExcludePatterns matcher root "." tree)
    as [trace [[|path]|]]; cbn [snd].
  - split; [by intros [? ?]|by intros [? ?]].
  - split; [by eexists|by eexists].
  - split; [by intros [? ?]|by intros [? ?]].
Qed.

(** X16: [processFile] reads the content of a file only when content is
    asked for and [os.Stat] has given a size within the limit, and then it
    reads the path it was given; it asks for the size first, once. In no
    state of a run has a file been read that was not such a file of a
    started goroutine. *)
Theorem X16_read_only_after_stat fs rc path rel :
  (∀ path', IORead path' ∈ io (exec fs (processFile path rel rc)) ↔
            path' = path ∧ rc = true
            ∧ ∃ size, stat fs path = Some size ∧ (size ≤ maxFileSize)%Z)
  ∧ (∃ rest, io (exec fs (processFile path rel rc)) = IOStat path :: rest
             ∧ ∀ path', IOStat path' ∉ rest)
  ∧ (∀ jobs failed sched s path',
       run fs rc sched (init jobs failed) = Some s →
       IORead path' ∈ ios s →
       rc = true
       ∧ ∃ j size, j ∈ jobs ∧ j.1 = path'
                   ∧ stat fs path' = Some size ∧ (size ≤ maxFileSize)%Z).
Proof.
  assert (∀ path rel path',
            IORead path' ∈ io (exec fs (processFile path rel rc)) ↔
            path' = path ∧ rc = true
            ∧ ∃ size, stat fs path = Some size ∧ (size ≤ maxFileSize)%Z)
    as Hread.
  { clear path rel. intros path rel path'.
    destruct (outcome_cases fs path rc)
      as [H|size H Hgt|size H Hle -> Hr|size H Hle Hr].
    - rewrite exec_stat_failed by done. cbn [io]. split.
      + intros [=]%list_elem_of_singleton.
      + intros (_ & _ & size & Hs & _). congruence.
    - erewrite exec_oversize by done. cbn [io]. split.
      + intros [=]%list_elem_of_singleton.
      + intros (_ & _ & size' & Hs & Hle). assert (size' = size) by congruence.
        lia.
    - erewrite exec_read_failed by done. cbn [io]. split.
      + intros [[=]|[= ->]%list_elem_of_singleton]%elem_of_cons. eauto.
      + intros (-> & _). right. by left.
    - destruct rc.
      + destruct Hr as [content Hr]; [done|]. erewrite exec_read by done.
        cbn [io]. split.
        * intros [[=]|[= ->]%list_elem_of_singleton]%elem_of_cons. eauto.
        * intros (-> & _). right. by left.
      + erewrite exec_list_mode by done. cbn [io]. split.
        * intros [=]%list_elem_of_singleton.
        * by intros (_ & [=] & _). }
  split_and!; [apply Hread| |].
  - destruct (outcome_cases fs path rc)
      as [H|size H Hgt|size H Hle -> Hr|size H Hle Hr].
    + rewrite exec_stat_failed by done. eexists. split; [done|].
      by intros ? ?%elem_of_nil.
    + erewrite exec_oversize by done. eexists. split; [done|].
      by intros ? ?%elem_of_nil.
    + erewrite exec_read_failed by done. eexists. split; [done|].
      by intros ? [=]%list_elem_of_singleton.
    + destruct rc.
      * destruct Hr as [content Hr]; [done|]. erewrite exec_read by done.
        eexists. split; [done|]. by intros ? [=]%list_elem_of_singleton.
      * erewrite exec_list_mode by done. eexists. split; [done|].
        by intros ? ?%elem_of_nil.
  - intros jobs failed sched s path' Hrun Hin.
    eapply run_ios_sub in Hin as ([p r] & Hj & Hin); [|done].
    apply Hread in Hin as (-> & Hrc & size & Hs & Hle). cbn [fst] in *.
    split; [done|]. by exists (p, r), size.
Qed.

(** X17: [listFiles] is only ever called with one of the three formats its
    final switch knows, with the directory given, and with [list] exactly
    under the list flag; so the default branch of the switch, the text
    output, is reached for the format [text] only. *)
Theorem X17_listFiles_called_with_known_format dirNotExist compile directory
    format listOnly excludePatterns directory' format' globs :
  main dirNotExist compile directory format listOnly excludePatterns
  = CallListFiles directory' format' globs →
  dirNotExist = false
  ∧ directory' = directory
  ∧ format' ∈ recognizedFormats
  ∧ (format' = "list" ↔ listOnly = true)
  ∧ (listOnly = false → format' = format)
  ∧ (∀ files,
       render format' files
       = if listOnly then inl (outputList files)
         else if String.eqb format "json" then inr (outputJSON files)
         else inl (outputText files)).
Proof.
  unfold main, Action, recognizedFormats, render.
  destruct dirNotExist; [done|].
  destruct listOnly; cbn [negb andb].
  - destruct (compileAll compile [] excludePatterns); [done|].
    intros [= <- <- <-]. split_and!; try done.
    do 2 right. by left.
  - destruct (String.eqb_spec format "text") as [->|Ht]; cbn [negb andb].
    + destruct (compileAll compile [] excludePatterns); [done|].
      intros [= <- <- <-]. split_and!; try done. by left.
    + destruct (String.eqb_spec format "json") as [->|Hj]; cbn [negb]; [|done].
      destruct (compileAll compile [] excludePatterns); [done|].
      intros [= <- <- <-]. split_and!; try done. right. by left.
Qed.

Lemma X17_listFiles_called_with_known_format_witness :
  "list" ∈ recognizedFormats.
Proof.
  refine (proj1 (proj2 (proj2 (X17_listFiles_called_with_known_format false
                                 suffixGlob "proj" "xml" true [] "proj" "list" []
                                 _)))).
  reflexivity.
Defined.
